(** * Synchronous data-parallel training: [SyncGraphGroup]

    A shallow embedding of [src/training/graph_group_sync.h] and the
    properties of its sharding, reduction, moving average, validation and
    checkpointing code.

    Conventions of the embedding.
    - A [Tensor] is the flat list of its elements.  Elements are [float] in
      the source; their arithmetic is modelled by exact rationals ([Qc]), so
      rounding of element arithmetic is not part of the model.
    - The one place where a [float] decides an integer, the shard size
      [ceil(totalSize / (float)devices_.size())], is modelled bit-exactly as
      IEEE binary32 with the Standard Library's [SpecFloat].
    - Undefined behaviour and exceptions of the source (null scheduler,
      access outside a buffer or vector, [std::out_of_range]) are results
      [Err _].
    - The two thread pools of [execute] join before the next phase starts and
      their tasks write disjoint buffers; tasks are run in index order. *)

From Stdlib Require Import String Ascii DecimalString DecimalN.
From Stdlib Require Import ZArith NArith Bool Lia Lqa QArith Qcanon SpecFloat List.
Import ListNotations.
Local Open Scope Z_scope.

(** ** IEEE binary32, as far as the shard size needs it *)

Module F32.
Definition prec : Z := 24.
Definition emax : Z := 128.

(** [(float)z] for an integer [z]: round to nearest, ties to even. *)
Definition of_Z (z : Z) : spec_float := binary_normalize prec emax z 0 false.

(** [x / y] on [float]. *)
Definition div : spec_float -> spec_float -> spec_float := SFdiv prec emax.

(** [ceil(x)] as an integer; infinities and NaN have none. *)
Definition ceil (x : spec_float) : option Z :=
  match x with
  | S754_zero _ => Some 0
  | S754_finite s m e =>
      let q := Z.shiftl (Zpos m) e in
      let exact := Z.shiftl q (- e) =? Zpos m in
      Some (if s then - q else if exact then q else q + 1)
  | _ => None
  end.
End F32.

(** ** Results of fallible code *)

Inductive error : Set :=
| NullScheduler   (* [scheduler_->...] on an unset scheduler *)
| OutOfRange      (* access outside a vector, a buffer or a string *)
| SizeMismatch    (* element-wise operation or copy between different sizes *)
| BadConversion   (* float to int conversion without a value *)
| IOError.        (* failure reported by the serialization collaborator *)

Inductive result (A : Type) : Type :=
| Ok (a : A)
| Err (e : error).
Arguments Ok {A} a.
Arguments Err {A} e.

Definition bind {A B} (r : result A) (k : A -> result B) : result B :=
  match r with
  | Ok a => k a
  | Err e => Err e
  end.

Declare Scope result_scope.
Delimit Scope result_scope with result.
Notation "x <- r ;; k" := (bind r (fun x => k))
  (at level 61, r at next level, right associativity) : result_scope.
Notation "' p <- r ;; k" := (bind r (fun p => k))
  (at level 61, p pattern, r at next level, right associativity) : result_scope.
Local Open Scope result_scope.

(** [v[i]] on a [std::vector]. *)
Definition at_ {A} (v : list A) (i : nat) : result A :=
  match nth_error v i with
  | Some a => Ok a
  | None => Err OutOfRange
  end.

(** [v[i] = a]. *)
Fixpoint upd {A} (v : list A) (i : nat) (a : A) : result (list A) :=
  match v, i with
  | [], _ => Err OutOfRange
  | _ :: v', O => Ok (a :: v')
  | x :: v', S i' => v'' <- upd v' i' a ;; Ok (x :: v'')
  end.

(** ** Tensors *)

Definition Tensor : Type := list Qc.

Definition size (t : Tensor) : Z := Z.of_nat (length t).

(** A tensor freshly obtained from an allocator.  Its contents are
    unspecified in the source; every such buffer is written before it is
    read. *)
Definition allocate (n : Z) : Tensor := repeat 0%Qc (Z.to_nat n).

(** [t->set(0)]. *)
Definition set0 (t : Tensor) : Tensor := repeat 0%Qc (length t).

(** Whether the [n] elements from offset [pos] lie inside a buffer of [len]
    elements.  A view of no element touches no memory. *)
Definition in_bounds (len pos n : Z) : bool :=
  (0 <=? pos) && (0 <=? n) && ((n =? 0) || (pos + n <=? len)).

(** The contents of the view [t->subtensor(pos, n)]. *)
Definition subtensor (t : Tensor) (pos n : Z) : result Tensor :=
  if in_bounds (size t) pos n
  then Ok (firstn (Z.to_nat n) (skipn (Z.to_nat pos) t))
  else Err OutOfRange.

(** [dst->copyFrom(src)]: the new contents of [dst]. *)
Definition copyFrom (dst src : Tensor) : result Tensor :=
  if size dst =? size src then Ok src else Err SizeMismatch.

(** [t->subtensor(pos, n)->copyFrom(src)]: the view aliases [t], so the
    copy lands in [t]; the new contents of [t]. *)
Definition copyToSub (t : Tensor) (pos n : Z) (src : Tensor) : result Tensor :=
  if in_bounds (size t) pos n then
    if n =? size src
    then Ok (firstn (Z.to_nat pos) t ++ src ++ skipn (Z.to_nat (pos + n)) t)
    else Err SizeMismatch
  else Err OutOfRange.

(** [Element(f(_1, _2), out, in)]: the new contents of [out]. *)
Definition Element (f : Qc -> Qc -> Qc) (out inp : Tensor) : result Tensor :=
  if size out =? size inp
  then Ok (map (fun ab => f (fst ab) (snd ab)) (combine out inp))
  else Err SizeMismatch.

(** ** The expression graph of a replica

    Only what the group reads and writes: [params()->vals()] and
    [params()->grads()]. *)

Record ExpressionGraph : Type := mkGraph {
  vals : Tensor;
  grads : Tensor
}.

Definition set_vals (g : ExpressionGraph) (v : Tensor) : ExpressionGraph :=
  mkGraph v (grads g).
Definition set_grads (g : ExpressionGraph) (d : Tensor) : ExpressionGraph :=
  mkGraph (vals g) d.

(** ** Shard sizing (lines 88-113, the arithmetic of the loop) *)

(** [(int)x] for a [size_t] or a floating value [x]: 32-bit wrap-around. *)
Definition to_int (z : Z) : Z := (z + 2 ^ 31) mod 2 ^ 32 - 2 ^ 31.

(** [shardSize_ = ceil(totalSize / (float)devices_.size())]. *)
Definition computeShardSize (totalSize : Z) (ndev : nat) : result Z :=
  match F32.ceil (F32.div (F32.of_Z totalSize) (F32.of_Z (Z.of_nat ndev))) with
  | Some s => if (- 2 ^ 31 <=? s) && (s <? 2 ^ 31) then Ok s else Err BadConversion
  | None => Err BadConversion
  end.

(** The loop over [devices_]: one [(pos, __size__)] per device, with
    [__size__ = min(shardSize_, totalSize)], [pos += __size__] and
    [totalSize -= __size__]. *)
Fixpoint shardRanges {D} (devices : list D) (shardSize pos totalSize : Z)
  : list (Z * Z) :=
  match devices with
  | [] => []
  | _ :: ds =>
      let size__ := Z.min shardSize totalSize in
      (pos, size__) :: shardRanges ds shardSize (pos + size__) (totalSize - size__)
  end.

(** The shard table of a model of [T] parameters on [devices]. *)
Definition shardTable {D} (devices : list D) (T : Z) : result (list (Z * Z)) :=
  let totalSize := to_int T in
  shardSize <- computeShardSize totalSize (length devices) ;;
  Ok (shardRanges devices shardSize 0 totalSize).

(** ** Moving average (lines 49-52) *)

(** [min(a, b)] on floats: [b < a ? b : a]. *)
Definition fmin (a b : Qc) : Qc :=
  match (b ?= a)%Qc with
  | Lt => b
  | _ => a
  end.

(** [(float)n] for a [size_t] batch count (counts stay far below the range
    of [size_t]; its wrap-around at [2^64] is not modelled). *)
Definition of_count (n : N) : Qc := Q2Qc (inject_Z (Z.of_N n)).

(** [min(mvDecay_, (float)(batches + 1) / (float)(batches + 10))]. *)
Definition effectiveDecay (mvDecay : Qc) (batches : N) : Qc :=
  fmin mvDecay (of_count (batches + 1) / of_count (batches + 10))%Qc.

(** [_1 = (decay * _1) + ((1.f - decay) * _2)]. *)
Definition ema (decay : Qc) (avg p : Qc) : Qc :=
  ((decay * avg) + ((1 - decay) * p))%Qc.

Definition updateMovingAverage (mvDecay : Qc) (paramsAvg params : Tensor)
  (batches : N) : result Tensor :=
  let decay := effectiveDecay mvDecay batches in
  Element (ema decay) paramsAvg params.

(** ** Loops *)

(** [for(idx = from; idx < from + n; ++idx) body(idx)] on a state [St]. *)
Fixpoint for_ {St} (n from : nat) (body : nat -> St -> result St) (s : St)
  : result St :=
  match n with
  | O => Ok s
  | S n' => s' <- body from s ;; for_ n' (S from) body s'
  end.

(** ** External collaborators

    The model, optimizer, scheduler, batch and serialization code is outside
    this file of the repository.  Their interface is the one the group
    calls; nothing is assumed of their results beyond what the signatures
    say.
    - [builders_[i]] is named by its index [i].
    - [build_forward] is [builders_[i]->build(graph, batch); graph->forward()].
    - [build_forward_backward] is the body of the compute task: build,
      forward, [costNode->scalar()], backward; it yields the cost and the
      replica's new gradient buffer.
    - [opt_update] is [shardOpt_[idx]->update(params, grads)]: the new
      optimizer state and the new contents of the parameter tensor, which is
      updated in place and so keeps its size; likewise the graph handed to
      [validate] keeps the size of its parameters.
    - Notifications from a scheduler to its registered training observers
      are the collaborators' own business and are not modelled. *)

Class Collaborators : Type := {
  Batch : Type;
  batch_size : Batch -> nat;
  batch_split : Batch -> nat -> list Batch;

  build_forward : nat -> ExpressionGraph -> Batch -> ExpressionGraph;
  build_forward_backward : nat -> ExpressionGraph -> Batch -> Qc * Tensor;

  Optimizer : Type;
  new_optimizer : Optimizer;
  opt_update : Optimizer -> Tensor -> Tensor -> Optimizer * Tensor;
  opt_update_size :
    forall o p g, length (snd (opt_update o p g)) = length p;

  Scheduler : Type;
  sched_update : Scheduler -> Qc -> Batch -> Scheduler;
  saving : Scheduler -> bool;
  validating : Scheduler -> bool;
  validate : Scheduler -> ExpressionGraph -> Scheduler * ExpressionGraph;
  validate_size :
    forall s g, length (vals (snd (validate s g))) = length (vals g);
  numberOfBatches : Scheduler -> N;

  Disk : Type;
  file_exists : Disk -> string -> bool;
  model_load : nat -> ExpressionGraph -> string -> Disk -> result ExpressionGraph;
  model_save : nat -> ExpressionGraph -> string -> bool -> Disk -> result Disk;
  sched_load : Scheduler -> string -> Disk -> result Scheduler;
  sched_save : Scheduler -> string -> Disk -> result Disk
}.

(** The entries of [options_]. *)
Record Config : Type := mkConfig {
  opt_devices : list nat;
  opt_moving_average : bool;
  opt_moving_decay : Qc;
  opt_no_reload : bool;
  opt_model : string;
  opt_overwrite : bool
}.

Section Group.
Context {C : Collaborators}.

(** ** The state of a [SyncGraphGroup]

    The members of the class (allocators and builders apart), and the files
    the serialization collaborator works on. *)

Record SyncGraphGroup : Type := mkGroup {
  options_ : Config;
  scheduler_ : option Scheduler;
  graphs_ : list ExpressionGraph;
  devices_ : list nat;
  params_ : list Tensor;
  grads_ : list Tensor;
  tmpTensors_ : list Tensor;
  shardOpt_ : list Optimizer;
  shardSize_ : Z;
  first_ : bool;
  paramsAvg_ : list Tensor;
  movingAvg_ : bool;
  mvDecay_ : Qc;
  disk_ : Disk
}.

Definition with_scheduler (g : SyncGraphGroup) (x : option Scheduler) :=
  mkGroup (options_ g) x (graphs_ g) (devices_ g) (params_ g) (grads_ g)
    (tmpTensors_ g) (shardOpt_ g) (shardSize_ g) (first_ g) (paramsAvg_ g)
    (movingAvg_ g) (mvDecay_ g) (disk_ g).
Definition with_graphs (g : SyncGraphGroup) (x : list ExpressionGraph) :=
  mkGroup (options_ g) (scheduler_ g) x (devices_ g) (params_ g) (grads_ g)
    (tmpTensors_ g) (shardOpt_ g) (shardSize_ g) (first_ g) (paramsAvg_ g)
    (movingAvg_ g) (mvDecay_ g) (disk_ g).
Definition with_params (g : SyncGraphGroup) (x : list Tensor) :=
  mkGroup (options_ g) (scheduler_ g) (graphs_ g) (devices_ g) x (grads_ g)
    (tmpTensors_ g) (shardOpt_ g) (shardSize_ g) (first_ g) (paramsAvg_ g)
    (movingAvg_ g) (mvDecay_ g) (disk_ g).
Definition with_grads (g : SyncGraphGroup) (x : list Tensor) :=
  mkGroup (options_ g) (scheduler_ g) (graphs_ g) (devices_ g) (params_ g) x
    (tmpTensors_ g) (shardOpt_ g) (shardSize_ g) (first_ g) (paramsAvg_ g)
    (movingAvg_ g) (mvDecay_ g) (disk_ g).
Definition with_tmpTensors (g : SyncGraphGroup) (x : list Tensor) :=
  mkGroup (options_ g) (scheduler_ g) (graphs_ g) (devices_ g) (params_ g)
    (grads_ g) x (shardOpt_ g) (shardSize_ g) (first_ g) (paramsAvg_ g)
    (movingAvg_ g) (mvDecay_ g) (disk_ g).
Definition with_shardOpt (g : SyncGraphGroup) (x : list Optimizer) :=
  mkGroup (options_ g) (scheduler_ g) (graphs_ g) (devices_ g) (params_ g)
    (grads_ g) (tmpTensors_ g) x (shardSize_ g) (first_ g) (paramsAvg_ g)
    (movingAvg_ g) (mvDecay_ g) (disk_ g).
Definition with_shardSize (g : SyncGraphGroup) (x : Z) :=
  mkGroup (options_ g) (scheduler_ g) (graphs_ g) (devices_ g) (params_ g)
    (grads_ g) (tmpTensors_ g) (shardOpt_ g) x (first_ g) (paramsAvg_ g)
    (movingAvg_ g) (mvDecay_ g) (disk_ g).
Definition with_first (g : SyncGraphGroup) (x : bool) :=
  mkGroup (options_ g) (scheduler_ g) (graphs_ g) (devices_ g) (params_ g)
    (grads_ g) (tmpTensors_ g) (shardOpt_ g) (shardSize_ g) x (paramsAvg_ g)
    (movingAvg_ g) (mvDecay_ g) (disk_ g).
Definition with_paramsAvg (g : SyncGraphGroup) (x : list Tensor) :=
  mkGroup (options_ g) (scheduler_ g) (graphs_ g) (devices_ g) (params_ g)
    (grads_ g) (tmpTensors_ g) (shardOpt_ g) (shardSize_ g) (first_ g) x
    (movingAvg_ g) (mvDecay_ g) (disk_ g).
Definition with_disk (g : SyncGraphGroup) (x : Disk) :=
  mkGroup (options_ g) (scheduler_ g) (graphs_ g) (devices_ g) (params_ g)
    (grads_ g) (tmpTensors_ g) (shardOpt_ g) (shardSize_ g) (first_ g)
    (paramsAvg_ g) (movingAvg_ g) (mvDecay_ g) x.

(** The constructor (lines 217-232): one empty graph and one optimizer per
    device. *)
Definition new_group (options : Config) (disk : Disk) : SyncGraphGroup :=
  mkGroup options None
    (map (fun _ => mkGraph [] []) (opt_devices options))
    (opt_devices options) [] [] []
    (map (fun _ => new_optimizer) (opt_devices options))
    0 true [] (opt_moving_average options) (opt_moving_decay options) disk.

(** [setScheduler] (lines 20-27). *)
Definition setScheduler (g : SyncGraphGroup) (s : Scheduler) : SyncGraphGroup :=
  with_scheduler g (Some s).

(** [scheduler_->...]. *)
Definition deref_scheduler (g : SyncGraphGroup) : result Scheduler :=
  match scheduler_ g with
  | Some s => Ok s
  | None => Err NullScheduler
  end.

(** ** [fetchParams] (lines 54-70) *)

Definition fetchParams_body (shardSize : Z) (params : list Tensor) (idx : nat)
  (s : Z * Tensor) : result (Z * Tensor) :=
  let '(pos, oldParams) := s in
  p <- at_ params idx ;;
  oldParams' <- copyToSub oldParams pos (size p) p ;;
  Ok (pos + shardSize, oldParams').

Definition fetchParams (g : SyncGraphGroup) (oldParams : Tensor)
  (params : list Tensor) : result Tensor :=
  r <- for_ (length (devices_ g)) 0
         (fetchParams_body (shardSize_ g) params) (0, oldParams) ;;
  Ok (snd r).

(** [fetchParams(graphs_[idx]->params()->vals(), params)]. *)
Definition fetchInto (g : SyncGraphGroup) (idx : nat) (params : list Tensor)
  : result SyncGraphGroup :=
  graph <- at_ (graphs_ g) idx ;;
  v <- fetchParams g (vals graph) params ;;
  graphs' <- upd (graphs_ g) idx (set_vals graph v) ;;
  Ok (with_graphs g graphs').

(** ** [execute], first step (lines 75-136) *)

(** Lines 77-86 for the replicas [i >= 1]: build and forward on
    [batches[0]], then copy the parameters of replica 0, [first]. *)
Fixpoint init_others (graphs : list ExpressionGraph) (i : nat)
  (batches : list Batch) (first : Tensor) : result (list ExpressionGraph) :=
  match graphs with
  | [] => Ok []
  | graph :: rest =>
      batch0 <- at_ batches 0 ;;
      let graph' := build_forward i graph batch0 in
      v <- copyFrom (vals graph') first ;;
      rest' <- init_others rest (S i) batches first ;;
      Ok (set_vals graph' v :: rest')
  end.

(** Lines 77-86. *)
Definition init_replicas (graphs : list ExpressionGraph) (batches : list Batch)
  : result (list ExpressionGraph) :=
  match graphs with
  | [] => Ok []
  | graph0 :: rest =>
      batch0 <- at_ batches 0 ;;
      let graph0' := build_forward 0 graph0 batch0 in
      rest' <- init_others rest 1 batches (vals graph0') ;;
      Ok (graph0' :: rest')
  end.

(** The buffers of the loop of lines 93-112, one shard per range: [param]
    (a copy of the slice of replica 0), [grad] and [tmp]. *)
Fixpoint alloc_shards (vals0 : Tensor) (ranges : list (Z * Z))
  : result (list (Tensor * Tensor * Tensor)) :=
  match ranges with
  | [] => Ok []
  | (pos, size__) :: rest =>
      sub <- subtensor vals0 pos size__ ;;
      param <- copyFrom (allocate size__) sub ;;
      shards <- alloc_shards vals0 rest ;;
      Ok ((param, allocate size__, allocate size__) :: shards)
  end.

(** Lines 88-113. *)
Definition init_shards (g : SyncGraphGroup) : result SyncGraphGroup :=
  if (length (params_ g) =? 0)%nat then
    graph0 <- at_ (graphs_ g) 0 ;;
    let totalSize := to_int (size (vals graph0)) in
    shardSize <- computeShardSize totalSize (length (devices_ g)) ;;
    shards <- alloc_shards (vals graph0)
                (shardRanges (devices_ g) shardSize 0 totalSize) ;;
    Ok (with_tmpTensors
          (with_grads
             (with_params (with_shardSize g shardSize)
                (params_ g ++ map (fun s => fst (fst s)) shards))
             (grads_ g ++ map (fun s => snd (fst s)) shards))
          (tmpTensors_ g ++ map snd shards))
  else Ok g.

(** The loop of lines 119-132: one shadow per device, a copy of
    [params_[i]]. *)
Fixpoint alloc_avg {D} (devices : list D) (i : nat) (shardSize totalSize : Z)
  (params : list Tensor) : result (list Tensor) :=
  match devices with
  | [] => Ok []
  | _ :: ds =>
      let size__ := Z.min shardSize totalSize in
      p <- at_ params i ;;
      paramAvg <- copyFrom (allocate size__) p ;;
      rest <- alloc_avg ds (S i) shardSize (totalSize - size__) params ;;
      Ok (paramAvg :: rest)
  end.

(** Lines 115-133. *)
Definition init_avg (g : SyncGraphGroup) : result SyncGraphGroup :=
  if movingAvg_ g && (length (paramsAvg_ g) =? 0)%nat then
    graph0 <- at_ (graphs_ g) 0 ;;
    let totalSize := to_int (size (vals graph0)) in
    avgs <- alloc_avg (devices_ g) 0 (shardSize_ g) totalSize (params_ g) ;;
    Ok (with_paramsAvg g (paramsAvg_ g ++ avgs))
  else Ok g.

(** Lines 75-136. *)
Definition lazy_init (g : SyncGraphGroup) (batches : list Batch)
  : result SyncGraphGroup :=
  graphs' <- init_replicas (graphs_ g) batches ;;
  g1 <- init_shards (with_graphs g graphs') ;;
  g2 <- init_avg g1 ;;
  Ok (with_first g2 false).

(** ** [execute], compute phase (lines 138-156) *)

Definition compute_task (batches : list Batch) (idx : nat)
  (s : list ExpressionGraph * list Qc) : result (list ExpressionGraph * list Qc) :=
  let '(graphs, costs) := s in
  graph <- at_ graphs idx ;;
  batch <- at_ batches idx ;;
  if (0 <? batch_size batch)%nat then
    let '(cost, grad) := build_forward_backward idx graph batch in
    costs' <- upd costs idx cost ;;
    graphs' <- upd graphs idx (set_grads graph grad) ;;
    Ok (graphs', costs')
  else Ok s.

Definition compute_phase (g : SyncGraphGroup) (batches : list Batch)
  : result (SyncGraphGroup * list Qc) :=
  let costs := repeat 0%Qc (length (devices_ g)) in
  r <- for_ (length batches) 0 (compute_task batches) (graphs_ g, costs) ;;
  Ok (with_graphs g (fst r), snd r).

(** ** [execute], reduction, update and broadcast (lines 158-190) *)

(** Lines 162-170, for shard [idx]: the accumulator [grads_[idx]] is the
    local [acc]. *)
Fixpoint accumulate (graphs : list ExpressionGraph) (i : nat)
  (batches : list Batch) (idx : nat) (pos size : Z)
  (s : Tensor * list Tensor) : result (Tensor * list Tensor) :=
  match graphs with
  | [] => Ok s
  | graph :: rest =>
      batch <- at_ batches i ;;
      s' <- (if (0 <? batch_size batch)%nat then
               let '(acc, tmps) := s in
               subGrad <- subtensor (grads graph) pos size ;;
               tmp <- at_ tmps idx ;;
               tmp' <- copyFrom tmp subGrad ;;
               tmps' <- upd tmps idx tmp' ;;
               acc' <- Element Qcplus acc tmp' ;;
               Ok (acc', tmps')
             else Ok s) ;;
      accumulate rest (S i) batches idx pos size s'
  end.

(** Lines 178-181. *)
Fixpoint broadcast (graphs : list ExpressionGraph) (pos size : Z) (p : Tensor)
  : result (list ExpressionGraph) :=
  match graphs with
  | [] => Ok []
  | graph :: rest =>
      v <- copyToSub (vals graph) pos size p ;;
      rest' <- broadcast rest pos size p ;;
      Ok (set_vals graph v :: rest')
  end.

(** The task of lines 159-182. *)
Definition reduce_task (batches : list Batch) (idx : nat) (pos : Z)
  (g : SyncGraphGroup) : result SyncGraphGroup :=
  acc0 <- at_ (grads_ g) idx ;;
  p <- at_ (params_ g) idx ;;
  let size := size p in
  '(acc, tmps) <- accumulate (graphs_ g) 0 batches idx pos size
                    (set0 acc0, tmpTensors_ g) ;;
  opt <- at_ (shardOpt_ g) idx ;;
  let '(opt', p') := opt_update opt p acc in
  avgs <- (if movingAvg_ g then
             avg <- at_ (paramsAvg_ g) idx ;;
             s <- deref_scheduler g ;;
             avg' <- updateMovingAverage (mvDecay_ g) avg p' (numberOfBatches s) ;;
             upd (paramsAvg_ g) idx avg'
           else Ok (paramsAvg_ g)) ;;
  graphs' <- broadcast (graphs_ g) pos size p' ;;
  grads' <- upd (grads_ g) idx acc ;;
  params' <- upd (params_ g) idx p' ;;
  opts' <- upd (shardOpt_ g) idx opt' ;;
  Ok (with_graphs
        (with_paramsAvg
           (with_shardOpt
              (with_tmpTensors (with_grads (with_params g params') grads') tmps)
              opts')
           avgs)
        graphs').

(** Lines 185-189. *)
Definition reduce_body (batches : list Batch) (idx : nat)
  (s : Z * SyncGraphGroup) : result (Z * SyncGraphGroup) :=
  let '(pos, g) := s in
  g' <- reduce_task batches idx pos g ;;
  p <- at_ (params_ g') idx ;;
  Ok (pos + size p, g').

Definition reduce_phase (g : SyncGraphGroup) (batches : list Batch)
  : result SyncGraphGroup :=
  r <- for_ (length (devices_ g)) 0 (reduce_body batches) (0, g) ;;
  Ok (snd r).

(** Lines 192-195. *)
Definition mean_cost (costs : list Qc) : Qc :=
  (fold_left Qcplus costs 0 / of_count (N.of_nat (length costs)))%Qc.

(** ** [save] (lines 249-289) *)

(** A [Ptr<ExpressionGraph>]: one of the group's graphs, or another one. *)
Inductive GraphPtr : Set :=
| PtrGraph (i : nat)
| PtrOther.

(** Lines 252-258. *)
Definition find_graph (g : SyncGraphGroup) (graph : GraphPtr) : nat :=
  match graph with
  | PtrGraph i => if (i <? length (graphs_ g))%nat then i else 0%nat
  | PtrOther => 0%nat
  end.

(** [std::to_string] of a [size_t]. *)
Definition to_string (n : N) : string := NilEmpty.string_of_uint (N.to_uint n).

(** [s.replace(s.size() - 4, 4, t)]: [std::out_of_range] when [s] has fewer
    than four characters. *)
Definition replace_last4 (s t : string) : result string :=
  if (4 <=? String.length s)%nat
  then Ok (substring 0 (String.length s - 4) s ++ t)%string
  else Err OutOfRange.

Definition save_scheduler (g : SyncGraphGroup) (name : string) (d : Disk)
  : result Disk :=
  match scheduler_ g with
  | Some s => sched_save s name d
  | None => Ok d
  end.

(** Lines 263-285. *)
Definition save_files (g : SyncGraphGroup) (idx : nat) (final : bool)
  : result SyncGraphGroup :=
  graph <- at_ (graphs_ g) idx ;;
  let name := opt_model (options_ g) in
  if opt_overwrite (options_ g) then
    d <- model_save idx graph name true (disk_ g) ;;
    d' <- save_scheduler g name d ;;
    Ok (with_disk g d')
  else
    d0 <- (if negb final then
             let numberOfBatches :=
               match scheduler_ g with
               | Some s => to_string (numberOfBatches s)
               | None => "unknown"%string
               end in
             nameOverwrite <-
               replace_last4 name (".iter" ++ numberOfBatches ++ ".npz")%string ;;
             model_save idx graph nameOverwrite false (disk_ g)
           else Ok (disk_ g)) ;;
    d <- model_save idx graph name true d0 ;;
    d' <- save_scheduler g name d ;;
    Ok (with_disk g d').

(** [save(graph, final)], lines 251-289. *)
Definition save_graph (g : SyncGraphGroup) (graph : GraphPtr) (final : bool)
  : result SyncGraphGroup :=
  let idx := find_graph g graph in
  g1 <- (if movingAvg_ g then fetchInto g idx (paramsAvg_ g) else Ok g) ;;
  g2 <- save_files g1 idx final ;;
  if movingAvg_ g2 then fetchInto g2 idx (params_ g2) else Ok g2.

(** [save(final)], line 249. *)
Definition save (g : SyncGraphGroup) (final : bool) : result SyncGraphGroup :=
  save_graph g (PtrGraph 0) final.

(** ** [execute], scheduler callbacks (lines 197-213) *)

(** Lines 204-212. *)
Definition validation (g : SyncGraphGroup) : result SyncGraphGroup :=
  g1 <- (if movingAvg_ g then fetchInto g 0 (paramsAvg_ g) else Ok g) ;;
  s <- deref_scheduler g1 ;;
  graph0 <- at_ (graphs_ g1) 0 ;;
  let '(s', graph0') := validate s graph0 in
  graphs' <- upd (graphs_ g1) 0 graph0' ;;
  let g2 := with_graphs (with_scheduler g1 (Some s')) graphs' in
  if movingAvg_ g2 then fetchInto g2 0 (params_ g2) else Ok g2.

Definition scheduler_phase (g : SyncGraphGroup) (cost : Qc) (batch : Batch)
  : result SyncGraphGroup :=
  match scheduler_ g with
  | None => Ok g
  | Some s =>
      let g1 := with_scheduler g (Some (sched_update s cost batch)) in
      s1 <- deref_scheduler g1 ;;
      g2 <- (if saving s1 then save g1 false else Ok g1) ;;
      s2 <- deref_scheduler g2 ;;
      if validating s2 then validation g2 else Ok g2
  end.

(** ** [execute] and [update] (lines 72-214, 234) *)

(** Lines 73-190: up to the end of the reduction phase; the state and the
    per-replica costs. *)
Definition execute_to_broadcast (g : SyncGraphGroup) (batch : Batch)
  : result (SyncGraphGroup * list Qc) :=
  let batches := batch_split batch (length (devices_ g)) in
  g1 <- (if first_ g then lazy_init g batches else Ok g) ;;
  '(g2, costs) <- compute_phase g1 batches ;;
  g3 <- reduce_phase g2 batches ;;
  Ok (g3, costs).

Definition execute (g : SyncGraphGroup) (batch : Batch) : result SyncGraphGroup :=
  '(g3, costs) <- execute_to_broadcast g batch ;;
  scheduler_phase g3 (mean_cost costs) batch.

Definition update (g : SyncGraphGroup) (batch : Batch) : result SyncGraphGroup :=
  execute g batch.

(** ** [load] (lines 236-247) *)

Fixpoint load_graphs (graphs : list ExpressionGraph) (i : nat) (init : string)
  (d : Disk) : result (list ExpressionGraph) :=
  match graphs with
  | [] => Ok []
  | graph :: rest =>
      graph' <- model_load i graph init d ;;
      rest' <- load_graphs rest (S i) init d ;;
      Ok (graph' :: rest')
  end.

Definition load_scheduler (g : SyncGraphGroup) (init : string)
  : result (option Scheduler) :=
  match scheduler_ g with
  | Some s => s' <- sched_load s init (disk_ g) ;; Ok (Some s')
  | None => Ok None
  end.

Definition load (g : SyncGraphGroup) : result SyncGraphGroup :=
  if negb (opt_no_reload (options_ g)) then
    let init := opt_model (options_ g) in
    if file_exists (disk_ g) init then
      sched <- load_scheduler g init ;;
      graphs' <- load_graphs (graphs_ g) 0 init (disk_ g) ;;
      Ok (with_graphs (with_scheduler g sched) graphs')
    else Ok g
  else Ok g.

End Group.

(** ** Specification-side vocabulary *)



(** Index [i] lies in the half-open range [r = (pos, size)]. *)
Definition in_range (r : Z * Z) (i : Z) : Prop :=
  fst r <= i < fst r + snd r.

Definition covered (ranges : list (Z * Z)) (i : Z) : Prop :=
  exists r, In r ranges /\ in_range r i.

(** Ranges that follow one another from [from] on, none of negative size. *)
Fixpoint contiguous (ranges : list (Z * Z)) (from : Z) : Prop :=
  match ranges with
  | [] => True
  | r :: rest => fst r = from /\ 0 <= snd r /\ contiguous rest (from + snd r)
  end.

Definition pairwise_disjoint (ranges : list (Z * Z)) : Prop :=
  forall k l rk rl i,
    nth_error ranges k = Some rk -> nth_error ranges l = Some rl ->
    k <> l -> ~ (in_range rk i /\ in_range rl i).

(** The ranges split [[0, T)] exactly. *)
Definition partitions (ranges : list (Z * Z)) (T : Z) : Prop :=
  contiguous ranges 0 /\ pairwise_disjoint ranges /\
  (forall i, covered ranges i <-> 0 <= i < T).


(** The total size of a list of ranges. *)
Definition total_size (ranges : list (Z * Z)) : Z :=
  fold_right (fun r s => snd r + s) 0 ranges.

(** The elements [[pos, pos + n)] of [t]. *)
Definition slice (t : Tensor) (pos n : Z) : Tensor :=
  firstn (Z.to_nat n) (skipn (Z.to_nat pos) t).

(** Element-wise sum of two tensors. *)
Definition tensor_add (a b : Tensor) : Tensor :=
  map (fun ab => (fst ab + snd ab)%Qc) (combine a b).

(** The sum of the elements at index [k] of the tensors [ts]. *)
Definition sum_at (ts : list Tensor) (k : nat) : Qc :=
  fold_right (fun t s => (nth k t 0 + s)%Qc) 0%Qc ts.

(** The element-wise sum of the slices [[pos, pos + n)] of [ts]. *)
Definition slice_sum (ts : list Tensor) (pos n : Z) : Tensor :=
  map (fun j => sum_at ts (Z.to_nat pos + j)) (seq 0 (Z.to_nat n)).

(** The gradient buffers of the replicas whose sub-batch is not empty, in
    replica order; [i] is the index of the first of [graphs]. *)
Fixpoint contributing {C : Collaborators} (graphs : list ExpressionGraph)
  (i : nat) (batches : list Batch) : list Tensor :=
  match graphs with
  | [] => []
  | graph :: rest =>
      match nth_error batches i with
      | Some batch =>
          if (0 <? batch_size batch)%nat
          then grads graph :: contributing rest (S i) batches
          else contributing rest (S i) batches
      | None => contributing rest (S i) batches
      end
  end.



(** [f i x] for each [x] of a list, [i] counting from [from]. *)
Fixpoint mapi {A B} (f : nat -> A -> B) (from : nat) (l : list A) : list B :=
  match l with
  | [] => []
  | x :: l' => f from x :: mapi f (S from) l'
  end.

(** What the compute task of replica [i] leaves in its graph and in its
    cost slot: nothing new on an empty sub-batch. *)
Definition computed_graph {C : Collaborators} (batches : list Batch) (i : nat)
  (graph : ExpressionGraph) : ExpressionGraph :=
  match nth_error batches i with
  | Some batch =>
      if (0 <? batch_size batch)%nat
      then set_grads graph (snd (build_forward_backward i graph batch))
      else graph
  | None => graph
  end.

Definition computed_cost {C : Collaborators} (batches : list Batch) (i : nat)
  (graph : ExpressionGraph) : Qc :=
  match nth_error batches i with
  | Some batch =>
      if (0 <? batch_size batch)%nat
      then fst (build_forward_backward i graph batch)
      else 0%Qc
  | None => 0%Qc
  end.


(** Every replica holds the parameters [v]. *)
Definition all_vals (v : Tensor) (graphs : list ExpressionGraph) : Prop :=
  Forall (fun g => vals g = v) graphs.

(** The live shards and their shadows are sized as the shard table of the
    parameters of [graph0] says, and [graph0] holds the concatenation of
    the live shards. *)
Definition shards_cover {C : Collaborators} (g : SyncGraphGroup)
  (graph0 : ExpressionGraph) : Prop :=
  0 <= shardSize_ g /\
  map size (params_ g) =
    map snd (shardRanges (devices_ g) (shardSize_ g) 0 (size (vals graph0))) /\
  map size (paramsAvg_ g) = map size (params_ g) /\
  vals graph0 = concat (params_ g).

(** The name of the numbered snapshot of [name] after [batches] batches:
    the last four characters of [name] give way to [.iter<batches>.npz]. *)
Definition snapshot_name (name : string) (batches : N) : string :=
  (substring 0 (String.length name - 4) name ++
   ".iter" ++ to_string batches ++ ".npz")%string.

(** The scheduler, the moving-average switch and the devices of [g'] are
    those of [g]. *)
Definition same_setup {C : Collaborators} (g g' : SyncGraphGroup) : Prop :=
  scheduler_ g' = scheduler_ g /\ movingAvg_ g' = movingAvg_ g /\
  devices_ g' = devices_ g.

(** ** Shards, step by step

    The vocabulary of the properties of a whole step: what each shard,
    shadow and replica holds after the reduction phase, and what it
    means for the shards of a group to fit a model. *)

(** The offset of shard [k]: the sizes of the shards before it. *)
Definition shard_pos (params : list Tensor) (k : nat) : Z :=
  size (concat (firstn k params)).

(** The accumulator of shard [k] after the reduction of a step: the sum of
    the slices of the contributing gradient buffers [contrib]. *)
Definition shard_grad (contrib : list Tensor) (params : list Tensor) (k : nat)
  (p : Tensor) : Tensor :=
  slice_sum contrib (shard_pos params k) (size p).

(** The optimizer and the parameters of shard [k] after one
    [shardOpt_[k]->update] on the reduced gradient. *)
Definition shard_update {C : Collaborators} (contrib : list Tensor)
  (params : list Tensor) (opts : list Optimizer) (k : nat) (p : Tensor)
  : Optimizer * Tensor :=
  match nth_error opts k with
  | Some o => opt_update o p (shard_grad contrib params k p)
  | None => (new_optimizer, p)
  end.

(** The shadow of shard [k] after the moving-average update towards the
    new parameters [p']. *)
Definition shard_avg (decay : Qc) (avg p' : Tensor) : Tensor :=
  map (fun ab => ema decay (fst ab) (snd ab)) (combine avg p').

(** A group whose shards fit a model of [T] parameters: one shard per
    device with its accumulator, scratch buffer and optimizer (and shadow,
    with the moving average) of the same size, and every replica holding
    [T] parameters. *)
Definition fits {C : Collaborators} (g : SyncGraphGroup) (T : Z) : Prop :=
  length (graphs_ g) = length (devices_ g) /\
  length (params_ g) = length (devices_ g) /\
  length (shardOpt_ g) = length (devices_ g) /\
  map size (grads_ g) = map size (params_ g) /\
  map size (tmpTensors_ g) = map size (params_ g) /\
  (movingAvg_ g = true -> map size (paramsAvg_ g) = map size (params_ g)) /\
  (forall graph, In graph (graphs_ g) -> size (vals graph) = T) /\
  size (concat (params_ g)) <= T.

(** The gradient buffers that the compute tasks of a step write: one per
    replica whose sub-batch is not empty, in replica order; [i] is the index
    of the first of [graphs]. *)
Fixpoint step_grads {C : Collaborators} (graphs : list ExpressionGraph)
  (i : nat) (batches : list Batch) : list Tensor :=
  match graphs with
  | [] => []
  | graph :: rest =>
      match nth_error batches i with
      | Some batch =>
          if (0 <? batch_size batch)%nat
          then snd (build_forward_backward i graph batch)
                 :: step_grads rest (S i) batches
          else step_grads rest (S i) batches
      | None => step_grads rest (S i) batches
      end
  end.

(** The state of the shards and replicas after the reduction phase of a
    step, shard by shard; [contrib] are the gradient buffers of the replicas
    that computed. *)
Definition reduced_params {C : Collaborators} (contrib : list Tensor)
  (g : SyncGraphGroup) : list Tensor :=
  mapi (fun k p => snd (shard_update contrib (params_ g) (shardOpt_ g) k p)) 0
    (params_ g).

Definition reduced_grads {C : Collaborators} (contrib : list Tensor)
  (g : SyncGraphGroup) : list Tensor :=
  mapi (fun k p => shard_grad contrib (params_ g) k p) 0 (params_ g).

Definition reduced_opts {C : Collaborators} (contrib : list Tensor)
  (g : SyncGraphGroup) : list Optimizer :=
  mapi (fun k p => fst (shard_update contrib (params_ g) (shardOpt_ g) k p)) 0
    (params_ g).

Definition reduced_avgs {C : Collaborators} (contrib : list Tensor)
  (g : SyncGraphGroup) : list Tensor :=
  match movingAvg_ g, scheduler_ g with
  | true, Some s =>
      mapi (fun k avg =>
              match nth_error (reduced_params contrib g) k with
              | Some p' =>
                  shard_avg (effectiveDecay (mvDecay_ g) (numberOfBatches s))
                    avg p'
              | None => avg
              end) 0 (paramsAvg_ g)
  | _, _ => paramsAvg_ g
  end.

(** A replica after the broadcast of the first [i] shards [shards]. *)
Definition broadcast_upto (shards : list Tensor) (i : nat)
  (graph : ExpressionGraph) : ExpressionGraph :=
  set_vals graph
    (concat (firstn i shards) ++
     skipn (length (concat (firstn i shards))) (vals graph)).

(** [cur] is [orig] with its first [i] entries replaced by those of
    [final]. *)
Definition stage {A} (orig final cur : list A) (i : nat) : Prop :=
  forall k, nth_error cur k =
            if (k <? i)%nat then nth_error final k else nth_error orig k.

(** A group as the constructor leaves it, whatever its scheduler, the
    contents of its replicas and its disk: no shard yet, one replica and
    one optimizer per device. *)
Definition fresh {C : Collaborators} (g : SyncGraphGroup) : Prop :=
  params_ g = [] /\ grads_ g = [] /\ tmpTensors_ g = [] /\ paramsAvg_ g = [] /\
  length (graphs_ g) = length (devices_ g) /\
  length (shardOpt_ g) = length (devices_ g).

(** ** A small instance of the collaborators

    Used to run the model on concrete inputs: a model of [T] parameters
    whose replica [i] starts from [i+1, ..., i+T], whose cost on a
    sub-batch is the sum of its items and whose gradient at offset [j] is
    [10 (i + 1) + j]; plain gradient descent; a scheduler that counts
    batches and records the costs it is given and the parameters it
    validates; a disk as the list of the files written. *)

Module Toy.

Definition qc (n : nat) : Qc := Q2Qc (inject_Z (Z.of_nat n)).

(** [n] consecutive chunks of [k] items. *)
Fixpoint chunks (items : list nat) (k n : nat) : list (list nat) :=
  match n with
  | O => []
  | S n' => firstn k items :: chunks (skipn k items) k n'
  end.

Fixpoint sgd (p g : Tensor) : Tensor :=
  match p, g with
  | x :: p', y :: g' => (x - y)%Qc :: sgd p' g'
  | _, _ => p
  end.

Definition sgd_length : forall p g, length (sgd p g) = length p :=
  fix len p g {struct p} :=
    match p, g with
    | [], _ => eq_refl
    | _ :: p', [] => eq_refl
    | _ :: p', _ :: g' => f_equal S (len p' g')
    end.

Record Sched : Type := mkSched {
  seen : N;
  costs : list Qc;
  save_now : bool;
  validate_now : bool;
  validated : list Tensor
}.

Inductive File : Type :=
| ModelFile (v : Tensor) (config : bool)
| SchedFile (n : N).

Fixpoint find_model (d : list (string * File)) (name : string) : option Tensor :=
  match d with
  | [] => None
  | (n, f) :: d' =>
      match find_model d' name with
      | Some v => Some v
      | None =>
          match f with
          | ModelFile v _ => if String.eqb n name then Some v else None
          | SchedFile _ => None
          end
      end
  end.

Definition collaborators (T : nat) : Collaborators := {|
  Batch := list nat;
  batch_size := @length nat;
  batch_split := fun b n => chunks b ((length b + n - 1) / n)%nat n;
  build_forward := fun i g b => mkGraph (map (fun k => qc (k + i)) (seq 1 T)) [];
  build_forward_backward := fun i g b =>
    (qc (list_sum b),
     map (fun j => qc (10 * (i + 1) + j)) (seq 0 (length (vals g))));
  Optimizer := nat;
  new_optimizer := O;
  opt_update := fun o p g => (S o, sgd p g);
  opt_update_size := fun o p g => sgd_length p g;
  Scheduler := Sched;
  sched_update := fun s c b =>
    mkSched (seen s + 1) (costs s ++ [c]) (save_now s) (validate_now s)
      (validated s);
  saving := save_now;
  validating := validate_now;
  validate := fun s g =>
    (mkSched (seen s) (costs s) (save_now s) (validate_now s)
       (validated s ++ [vals g]), g);
  validate_size := fun s g => eq_refl;
  numberOfBatches := seen;
  Disk := list (string * File);
  file_exists := fun d name => existsb (fun e => String.eqb (fst e) name) d;
  model_load := fun i g name d =>
    match find_model d name with
    | Some v => Ok (set_vals g v)
    | None => Err IOError
    end;
  model_save := fun i g name config d =>
    Ok (d ++ [(name, ModelFile (vals g) config)]);
  sched_load := fun s name d => Ok s;
  sched_save := fun s name d => Ok (d ++ [(name, SchedFile (seen s))])
|}.

(** A group on [devices] for a model of [T] parameters, as constructed. *)
Definition group (T : nat) (devices : list nat) (movingAvg : bool)
  (overwrite : bool) : @SyncGraphGroup (collaborators T) :=
  @new_group (collaborators T)
    (mkConfig devices movingAvg (Q2Qc (9999 # 10000)) false "model.npz"
       overwrite)
    (@nil (string * File)).

Definition scheduler (save_now validate_now : bool) : Sched :=
  mkSched 0 [] save_now validate_now [].

(** Sub-batches, as lists of items. *)
Definition batches (T : nat) (l : list (list nat))
  : list (@Batch (collaborators T)) := l.

(** A group of two devices after some steps on a model of three parameters:
    live shards [[1; 2]] and [[3]], shadows [[4; 5]] and [[6]], both
    replicas holding [[1; 2; 3]]. *)
Definition trained (movingAvg overwrite : bool) (sched : option Sched)
  : @SyncGraphGroup (collaborators 3) :=
  @mkGroup (collaborators 3)
    (mkConfig [0; 1]%nat movingAvg (Q2Qc (9999 # 10000)) false "model.npz"
       overwrite)
    sched
    [mkGraph [qc 1; qc 2; qc 3] []; mkGraph [qc 1; qc 2; qc 3] []]
    [0; 1]%nat
    [[qc 1; qc 2]; [qc 3]]
    [[qc 0; qc 0]; [qc 0]]
    [[qc 0; qc 0]; [qc 0]]
    [O; O] 2 false
    [[qc 4; qc 5]; [qc 6]]
    movingAvg (Q2Qc (9999 # 10000)) (@nil (string * File)).

End Toy.

(** * Properties *)

(** ** Results, vectors and tensors *)

Lemma bind_Ok {A B} (r : result A) (k : A -> result B) b :
  bind r k = Ok b -> exists a, r = Ok a /\ k a = Ok b.
Proof. destruct r; simpl; [eauto | discriminate]. Qed.

Lemma at_Some {A} (v : list A) i a : nth_error v i = Some a -> at_ v i = Ok a.
Proof. unfold at_. now intros ->. Qed.

Lemma at_inv {A} (v : list A) i a : at_ v i = Ok a -> nth_error v i = Some a.
Proof. unfold at_. destruct (nth_error v i); [now intros [= ->] | discriminate]. Qed.

Lemma upd_ok {A} (v : list A) : forall i a x,
  nth_error v i = Some x ->
  exists v', upd v i a = Ok v' /\ length v' = length v /\
    nth_error v' i = Some a /\
    forall j, j <> i -> nth_error v' j = nth_error v j.
Proof.
  induction v as [|y v IH]; intros [|i] a x H; simpl in *; try discriminate.
  - eexists; repeat split; eauto. intros [|j] Hj; [congruence | reflexivity].
  - destruct (IH i a x H) as (v' & -> & Hl & Hi & Ho). simpl.
    eexists; repeat split; eauto.
    + simpl; congruence.
    + intros [|j] Hj; simpl; auto.
Qed.

Lemma upd_inv {A} (v : list A) : forall i a v',
  upd v i a = Ok v' ->
  length v' = length v /\ nth_error v' i = Some a /\
  forall j, j <> i -> nth_error v' j = nth_error v j.
Proof.
  intros i a v' H.
  destruct (nth_error v i) as [x|] eqn:E.
  - destruct (upd_ok v i a x E) as (v'' & Hu & ?). rewrite Hu in H.
    injection H as <-. auto.
  - exfalso. revert i v' H E. induction v as [|y v IH]; intros [|i] v' H E;
      simpl in *; try discriminate.
    apply bind_Ok in H. destruct H as (w & Hw & _). eauto.
Qed.

Lemma size_nonneg t : 0 <= size t.
Proof. unfold size. lia. Qed.

Lemma in_bounds_true len pos n :
  0 <= pos -> 0 <= n -> pos + n <= len -> in_bounds len pos n = true.
Proof.
  intros. unfold in_bounds.
  rewrite (proj2 (Z.leb_le 0 pos)), (proj2 (Z.leb_le 0 n)) by lia.
  rewrite (proj2 (Z.leb_le (pos + n) len)) by lia.
  now rewrite orb_true_r.
Qed.

Lemma in_bounds_inv len pos n :
  in_bounds len pos n = true -> 0 <= pos /\ 0 <= n /\ (n = 0 \/ pos + n <= len).
Proof.
  unfold in_bounds. rewrite !andb_true_iff, orb_true_iff.
  rewrite !Z.leb_le, Z.eqb_eq. tauto.
Qed.

Lemma slice_length t pos n :
  in_bounds (size t) pos n = true -> length (slice t pos n) = Z.to_nat n.
Proof.
  intros H. apply in_bounds_inv in H.
  unfold slice, size in *. rewrite length_firstn, length_skipn. lia.
Qed.

Lemma subtensor_ok t pos n :
  in_bounds (size t) pos n = true -> subtensor t pos n = Ok (slice t pos n).
Proof. intros H. unfold subtensor. now rewrite H. Qed.

Lemma nth_slice t pos n j :
  (j < Z.to_nat n)%nat -> nth j (slice t pos n) 0%Qc = nth (Z.to_nat pos + j) t 0%Qc.
Proof.
  intros Hj. unfold slice. rewrite nth_firstn.
  destruct (Nat.ltb_spec j (Z.to_nat n)); [|lia]. apply nth_skipn.
Qed.

Lemma tensor_add_length a b : length a = length b -> length (tensor_add a b) = length a.
Proof. intros H. unfold tensor_add. rewrite length_map, length_combine. lia. Qed.

Lemma nth_tensor_add a : forall b j,
  length a = length b -> (j < length a)%nat ->
  nth j (tensor_add a b) 0%Qc = (nth j a 0 + nth j b 0)%Qc.
Proof.
  unfold tensor_add.
  induction a as [|x a IH]; intros [|y b] [|j] Hl Hj; simpl in *;
    try lia; try discriminate; auto.
  apply IH; lia.
Qed.

Lemma map_nth_seq (t : Tensor) : map (fun j => nth j t 0%Qc) (seq 0 (length t)) = t.
Proof.
  induction t as [|x t IH]; simpl; auto.
  f_equal. rewrite <- seq_shift, map_map. exact IH.
Qed.

Lemma fold_tensor_add ts pos n :
  (forall t, In t ts -> in_bounds (size t) pos n = true) ->
  forall acc, length acc = Z.to_nat n ->
  fold_left (fun a t => tensor_add a (slice t pos n)) ts acc =
  map (fun j => (nth j acc 0 + sum_at ts (Z.to_nat pos + j))%Qc) (seq 0 (Z.to_nat n)).
Proof.
  induction ts as [|t ts IH]; intros Hin acc Hacc.
  - simpl. rewrite <- (map_nth_seq acc) at 1. rewrite Hacc.
    apply map_ext. intros j. ring.
  - cbn [fold_left].
    assert (Hs : length (slice t pos n) = Z.to_nat n)
      by (apply slice_length; apply Hin; now left).
    rewrite IH.
    + apply map_ext_in. intros j Hj. apply in_seq in Hj.
      rewrite nth_tensor_add, nth_slice by lia. cbn [sum_at fold_right].
      fold (sum_at ts (Z.to_nat pos + j)). ring.
    + intros t' Ht'. apply Hin. now right.
    + rewrite tensor_add_length; lia.
Qed.

Lemma nth_set0 (t : Tensor) j : nth j (set0 t) 0%Qc = 0%Qc.
Proof. unfold set0. apply nth_repeat. Qed.

Lemma fold_tensor_add_zero ts pos n (acc0 : Tensor) :
  (forall t, In t ts -> in_bounds (size t) pos n = true) ->
  size acc0 = n ->
  fold_left (fun a t => tensor_add a (slice t pos n)) ts (set0 acc0) =
  slice_sum ts pos n.
Proof.
  intros Hin Hacc. rewrite fold_tensor_add; auto.
  - unfold slice_sum. apply map_ext. intros j. rewrite nth_set0. ring.
  - unfold set0, size in *. rewrite repeat_length. lia.
Qed.


(** ** Shard ranges *)

Lemma shardRanges_length {D} (devices : list D) s pos T :
  length (shardRanges devices s pos T) = length devices.
Proof.
  revert pos T. induction devices; simpl; intros; auto.
Qed.

Lemma shardRanges_contiguous {D} (devices : list D) s :
  0 <= s -> forall pos T, 0 <= T -> contiguous (shardRanges devices s pos T) pos.
Proof.
  intros Hs. induction devices as [|d ds IH]; simpl; intros pos T HT; auto.
  repeat split; try lia. apply IH. lia.
Qed.

Lemma shardRanges_total {D} (devices : list D) s :
  0 <= s -> forall pos T, 0 <= T ->
  total_size (shardRanges devices s pos T) = Z.min T (Z.of_nat (length devices) * s).
Proof.
  intros Hs. induction devices as [|d ds IH]; intros pos T HT.
  - simpl. lia.
  - cbn [shardRanges total_size fold_right snd length].
    fold (total_size (shardRanges ds s (pos + Z.min s T) (T - Z.min s T))).
    rewrite IH by lia. nia.
Qed.

Lemma covered_contiguous ranges : forall from i,
  contiguous ranges from ->
  (covered ranges i <-> from <= i < from + total_size ranges).
Proof.
  induction ranges as [|r rest IH]; intros from i Hc.
  - simpl. split; [intros [r [[] _]] | lia].
  - destruct Hc as (Hpos & Hsz & Hrest). specialize (IH _ i Hrest).
    cbn [total_size fold_right]. fold (total_size rest).
    unfold covered, in_range in *. split.
    + intros [r' [[<-|Hin] Hr']].
      * assert (0 <= total_size rest).
        { clear -Hrest. revert Hrest. generalize (from + snd r).
          induction rest as [|x xs IHx]; simpl; intros; [lia|].
          destruct Hrest as (_ & ? & Hx). apply IHx in Hx. unfold total_size in *. lia. }
        lia.
      * assert (from + snd r <= i < from + snd r + total_size rest) by (apply IH; eauto).
        lia.
    + intros Hi. destruct (Z_lt_ge_dec i (from + snd r)).
      * exists r. split; [now left | lia].
      * destruct (proj2 IH) as [r' [Hin Hr']]; [lia|].
        exists r'. split; [now right | auto].
Qed.

Lemma contiguous_after ranges : forall from k r i,
  contiguous ranges from -> nth_error ranges k = Some r -> in_range r i ->
  from <= i.
Proof.
  induction ranges as [|x rest IH]; intros from k r i Hc Hk Hi.
  - destruct k; discriminate.
  - destruct Hc as (Hpos & Hsz & Hrest). destruct k.
    + injection Hk as <-. unfold in_range in Hi. lia.
    + simpl in Hk. pose proof (IH _ _ _ _ Hrest Hk Hi). lia.
Qed.

Lemma contiguous_disjoint ranges : forall from,
  contiguous ranges from -> pairwise_disjoint ranges.
Proof.
  induction ranges as [|x rest IH]; intros from Hc k l rk rl i Hk Hl Hne [Hik Hil].
  - destruct k; discriminate.
  - destruct Hc as (Hpos & Hsz & Hrest).
    destruct k, l; simpl in Hk, Hl; try congruence.
    + injection Hk as <-. pose proof (contiguous_after _ _ _ _ _ Hrest Hl Hil).
      unfold in_range in Hik. lia.
    + injection Hl as <-. pose proof (contiguous_after _ _ _ _ _ Hrest Hk Hik).
      unfold in_range in Hil. lia.
    + apply (IH _ Hrest k l rk rl i); auto.
Qed.

Lemma shardRanges_partitions {D} (devices : list D) (s T : Z) :
  0 <= s -> 0 <= T -> T <= Z.of_nat (length devices) * s ->
  partitions (shardRanges devices s 0 T) T.
Proof.
  intros Hs HT Hcover.
  pose proof (shardRanges_contiguous devices s Hs 0 T HT) as Hc.
  split; [exact Hc | split; [eapply contiguous_disjoint; eauto |]].
  intros i. rewrite (covered_contiguous _ _ i Hc), shardRanges_total by lia.
  lia.
Qed.

(** C2.  The shard table of a model of 16777217 parameters on one device
    is the single range [[0, 16777216)]: [(float)16777217] is [16777216.0f],
    so [shardSize_] is one short of [ceil(T / N)], the last parameter lies
    in no shard and the ranges do not cover [[0, T)]. *)
Theorem shardTable_drops_last_parameter :
  shardTable [0%nat] 16777217 = Ok [(0, 16777216)] /\
  ~ covered [(0, 16777216)] 16777216 /\
  ~ partitions [(0, 16777216)] 16777217.
Proof.
  assert (Hnc : ~ covered [(0, 16777216)] 16777216).
  { intros [r [[<-|[]] Hr]]. unfold in_range in Hr. simpl in Hr. lia. }
  split; [| split].
  - vm_compute. reflexivity.
  - exact Hnc.
  - intros (_ & _ & H). apply Hnc. apply H. lia.
Qed.

(** ** Moving average *)



















Lemma Element_ok f out inp :
  length out = length inp ->
  Element f out inp = Ok (map (fun ab => f (fst ab) (snd ab)) (combine out inp)).
Proof.
  intros H. unfold Element, size. rewrite H, Z.eqb_refl. reflexivity.
Qed.











(** ** Gradient accumulation *)

Section Acc.
Context {C : Collaborators}.

Lemma accumulate_fold (graphs : list ExpressionGraph) (batches : list Batch)
  (idx : nat) (pos n : Z) :
  forall i acc tmps tmp,
  (length graphs + i <= length batches)%nat ->
  nth_error tmps idx = Some tmp -> size tmp = n -> size acc = n ->
  (forall t, In t (contributing graphs i batches) ->
     in_bounds (size t) pos n = true) ->
  exists tmps',
    accumulate graphs i batches idx pos n (acc, tmps) =
      Ok (fold_left (fun a t => tensor_add a (slice t pos n))
            (contributing graphs i batches) acc, tmps') /\
    length tmps' = length tmps /\
    (exists tmp', nth_error tmps' idx = Some tmp' /\ size tmp' = n) /\
    (forall j, j <> idx -> nth_error tmps' j = nth_error tmps j).
Proof.
  induction graphs as [|graph rest IH];
    intros i acc tmps tmp Hlen Htmp Hts Hacc Hin.
  - simpl. exists tmps. repeat split; eauto.
  - cbn [accumulate contributing] in *.
    destruct (nth_error batches i) as [batch|] eqn:Hb.
    2:{ apply nth_error_None in Hb. simpl in Hlen. lia. }
    rewrite (at_Some _ _ _ Hb). cbn [bind].
    destruct (0 <? batch_size batch)%nat eqn:Hne.
    + assert (Hb0 : in_bounds (size (grads graph)) pos n = true)
        by (apply Hin; now left).
      rewrite subtensor_ok by exact Hb0. cbn [bind].
      rewrite (at_Some _ _ _ Htmp). cbn [bind].
      assert (Hsl : size (slice (grads graph) pos n) = n).
      { unfold size. rewrite slice_length by exact Hb0.
        apply in_bounds_inv in Hb0. lia. }
      unfold copyFrom. rewrite Hts, Hsl, Z.eqb_refl. cbn [bind].
      destruct (upd_ok tmps idx (slice (grads graph) pos n) tmp Htmp)
        as (tmps1 & -> & Hl1 & Hi1 & Ho1). cbn [bind].
      unfold Element. rewrite Hacc, Hsl, Z.eqb_refl. cbn [bind].
      fold (tensor_add acc (slice (grads graph) pos n)).
      destruct (IH (S i) (tensor_add acc (slice (grads graph) pos n)) tmps1
                  (slice (grads graph) pos n))
        as (tmps' & -> & Hl' & Hi' & Ho'); auto.
      * simpl in Hlen. lia.
      * unfold size in *. rewrite tensor_add_length; lia.
      * intros t Ht. apply Hin. now right.
      * exists tmps'. repeat split; auto; try congruence.
        intros j Hj. rewrite Ho', Ho1; auto.
    + cbn [bind].
      destruct (IH (S i) acc tmps tmp) as (tmps' & -> & Hl' & Hi' & Ho'); auto.
      * simpl in Hlen. lia.
      * exists tmps'. repeat split; auto.
Qed.


End Acc.


(** ** Loops *)

Lemma for_total {St} (P : nat -> St -> Prop) (body : nat -> St -> result St) :
  forall n from s,
  P from s ->
  (forall i s, (from <= i < from + n)%nat -> P i s ->
     exists s', body i s = Ok s' /\ P (S i) s') ->
  exists s', for_ n from body s = Ok s' /\ P (from + n)%nat s'.
Proof.
  induction n as [|n IH]; intros from s H0 Hstep.
  - exists s. rewrite Nat.add_0_r. now split.
  - destruct (Hstep from s) as (s1 & Hb & H1); [lia | exact H0 |].
    destruct (IH (S from) s1 H1) as (s' & Hf & H').
    + intros i x Hi. apply Hstep. lia.
    + exists s'. cbn [for_]. rewrite Hb. cbn [bind]. rewrite Hf.
      split; [reflexivity |]. now rewrite Nat.add_succ_r.
Qed.

Lemma for_partial {St} (P : nat -> St -> Prop) (body : nat -> St -> result St) :
  forall n from s s',
  for_ n from body s = Ok s' ->
  P from s ->
  (forall i s s', (from <= i < from + n)%nat -> P i s -> body i s = Ok s' ->
     P (S i) s') ->
  P (from + n)%nat s'.
Proof.
  induction n as [|n IH]; intros from s s' Hf H0 Hstep.
  - injection Hf as <-. now rewrite Nat.add_0_r.
  - cbn [for_] in Hf. apply bind_Ok in Hf. destruct Hf as (s1 & Hb & Hf).
    rewrite Nat.add_succ_r. apply (IH (S from) s1 s' Hf).
    + apply (Hstep from s s1); auto. lia.
    + intros i x x' Hi. apply Hstep. lia.
Qed.


(** Inversion of a successful chain of binds. *)
Ltac inv_ok H :=
  repeat match type of H with
  | bind _ _ = Ok _ =>
      let x := fresh "x" in let E := fresh "E" in
      apply bind_Ok in H; destruct H as (x & E & H)
  | (let '(_, _) := ?e in _) = Ok _ => destruct e eqn:?
  | (if ?b then _ else _) = Ok _ => destruct b eqn:?
  | Err _ = Ok _ => discriminate H
  end.


(** ** The compute phase and the reported cost *)

Lemma nth_error_mapi {A B} (f : nat -> A -> B) (l : list A) : forall from k,
  nth_error (mapi f from l) k = option_map (f (from + k)%nat) (nth_error l k).
Proof.
  induction l as [|x l IH]; intros from [|k]; simpl; auto.
  - now rewrite Nat.add_0_r.
  - rewrite IH. now rewrite Nat.add_succ_r.
Qed.

Lemma mapi_length {A B} (f : nat -> A -> B) (l : list A) : forall from,
  length (mapi f from l) = length l.
Proof. induction l; simpl; auto. Qed.


Section Compute.
Context {C : Collaborators}.


Lemma compute_phase_spec (g : SyncGraphGroup) (batches : list Batch) :
  length batches = length (devices_ g) ->
  length (graphs_ g) = length (devices_ g) ->
  compute_phase g batches =
  Ok (with_graphs g (mapi (computed_graph batches) 0 (graphs_ g)),
      mapi (computed_cost batches) 0 (graphs_ g)).
Proof.
  intros Hb Hg. unfold compute_phase.
  set (N := length (devices_ g)) in *.
  set (graphs := graphs_ g) in *.
  destruct (for_total
    (fun i (s : list ExpressionGraph * list Qc) =>
       length (fst s) = N /\ length (snd s) = N /\
       forall k,
         nth_error (fst s) k =
           (if (k <? i)%nat
            then nth_error (mapi (computed_graph batches) 0 graphs) k
            else nth_error graphs k) /\
         nth_error (snd s) k =
           (if (k <? i)%nat
            then nth_error (mapi (computed_cost batches) 0 graphs) k
            else nth_error (repeat 0%Qc N) k))
    (compute_task batches) (length batches) 0%nat (graphs, repeat 0%Qc N))
    as (s' & Hfor & Hl1 & Hl2 & Hnth).
  - cbn [fst snd]. rewrite repeat_length. repeat split; auto.
  - intros i [gs cs] Hi (Hl1 & Hl2 & Hnth). cbn [fst snd] in *.
    unfold compute_task.
    destruct (Hnth i) as [Hgi Hci]. rewrite Nat.ltb_irrefl in Hgi, Hci.
    destruct (nth_error graphs i) as [graph|] eqn:Egraph.
    2:{ apply nth_error_None in Egraph. lia. }
    destruct (nth_error batches i) as [batch|] eqn:Ebatch.
    2:{ apply nth_error_None in Ebatch. lia. }
    rewrite (at_Some _ _ _ Hgi), (at_Some _ _ _ Ebatch). cbn [bind].
    assert (Hcg : nth_error (mapi (computed_graph batches) 0 graphs) i =
                  Some (computed_graph batches i graph))
      by (rewrite nth_error_mapi, Egraph; reflexivity).
    assert (Hcc : nth_error (mapi (computed_cost batches) 0 graphs) i =
                  Some (computed_cost batches i graph))
      by (rewrite nth_error_mapi, Egraph; reflexivity).
    assert (Vg : computed_graph batches i graph =
                 if (0 <? batch_size batch)%nat
                 then set_grads graph (snd (build_forward_backward i graph batch))
                 else graph)
      by (unfold computed_graph; now rewrite Ebatch).
    assert (Vc : computed_cost batches i graph =
                 if (0 <? batch_size batch)%nat
                 then fst (build_forward_backward i graph batch)
                 else 0%Qc)
      by (unfold computed_cost; now rewrite Ebatch).
    rewrite Vg in Hcg. rewrite Vc in Hcc. clear Vg Vc.
    destruct (0 <? batch_size batch)%nat eqn:Hne.
    + destruct (build_forward_backward i graph batch) as [cost grad] eqn:Ebfb.
      cbn [fst snd] in *.
      rewrite nth_error_repeat in Hci by lia.
      destruct (upd_ok cs i cost _ Hci) as (cs' & -> & Hlc & Hic & Hoc).
      cbn [bind].
      destruct (upd_ok gs i (set_grads graph grad) _ Hgi)
        as (gs' & -> & Hlg & Hig & Hog).
      cbn [bind]. eexists. split; [reflexivity |]. cbn [fst snd].
      repeat split; try congruence.
      * destruct (Nat.eq_dec k i) as [->|Hk].
        -- rewrite (proj2 (Nat.ltb_lt i (S i))) by lia. congruence.
        -- rewrite Hog by exact Hk. rewrite (proj1 (Hnth k)).
           destruct (Nat.ltb_spec k i), (Nat.ltb_spec k (S i)); auto; lia.
      * destruct (Nat.eq_dec k i) as [->|Hk].
        -- rewrite (proj2 (Nat.ltb_lt i (S i))) by lia. congruence.
        -- rewrite Hoc by exact Hk. rewrite (proj2 (Hnth k)).
           destruct (Nat.ltb_spec k i), (Nat.ltb_spec k (S i)); auto; lia.
    + eexists. split; [reflexivity |]. cbn [fst snd].
      repeat split; auto.
      * destruct (Nat.eq_dec k i) as [->|Hk].
        -- rewrite (proj2 (Nat.ltb_lt i (S i))) by lia. congruence.
        -- rewrite (proj1 (Hnth k)).
           destruct (Nat.ltb_spec k i), (Nat.ltb_spec k (S i)); auto; lia.
      * destruct (Nat.eq_dec k i) as [->|Hk].
        -- rewrite (proj2 (Nat.ltb_lt i (S i))) by lia.
           rewrite Hci, Hcc. now rewrite nth_error_repeat by lia.
        -- rewrite (proj2 (Hnth k)).
           destruct (Nat.ltb_spec k i), (Nat.ltb_spec k (S i)); auto; lia.
  - rewrite Hfor. cbn [bind]. destruct s' as [gs cs]. cbn [fst snd] in *.
    assert (gs = mapi (computed_graph batches) 0 graphs) as ->.
    { apply nth_error_ext. intros k. rewrite (proj1 (Hnth k)).
      destruct (Nat.ltb_spec k (0 + length batches)); auto.
      rewrite (proj2 (nth_error_None _ _)) by lia.
      symmetry. apply nth_error_None. rewrite mapi_length. lia. }
    assert (cs = mapi (computed_cost batches) 0 graphs) as ->.
    { apply nth_error_ext. intros k. rewrite (proj2 (Hnth k)).
      destruct (Nat.ltb_spec k (0 + length batches)); auto.
      rewrite (proj2 (nth_error_None _ _)) by (rewrite repeat_length; lia).
      symmetry. apply nth_error_None. rewrite mapi_length. lia. }
    reflexivity.
Qed.

End Compute.

(** ** Replica convergence *)





Section Convergence.
Context {C : Collaborators}.

Lemma init_others_vals (batches : list Batch) (first : Tensor) :
  forall graphs i graphs',
  init_others graphs i batches first = Ok graphs' -> all_vals first graphs'.
Proof.
  induction graphs as [|g rest IH]; intros i graphs' H; simpl in H.
  - injection H as <-. constructor.
  - inv_ok H. injection H as <-. constructor.
    + simpl. unfold copyFrom in E0.
      destruct (size (vals (build_forward i g x)) =? size first); [|discriminate].
      now injection E0 as <-.
    + eapply IH; eauto.
Qed.







Lemma init_shards_graphs (g g' : SyncGraphGroup) :
  init_shards g = Ok g' -> graphs_ g' = graphs_ g.
Proof.
  unfold init_shards. intros H. inv_ok H; injection H as <-; reflexivity.
Qed.

Lemma init_avg_graphs (g g' : SyncGraphGroup) :
  init_avg g = Ok g' -> graphs_ g' = graphs_ g.
Proof.
  unfold init_avg. intros H. inv_ok H; injection H as <-; reflexivity.
Qed.


End Convergence.

(** ** [fetchParams], validation and saving *)

Lemma shardRanges_sizes_pos {D} (devices : list D) s : forall pos pos' T,
  map snd (shardRanges devices s pos T) = map snd (shardRanges devices s pos' T).
Proof.
  induction devices as [|d ds IH]; intros pos pos' T; simpl; auto.
  f_equal. apply IH.
Qed.

Lemma copyToSub_append (pre post t : Tensor) (pos : Z) :
  size pre = pos -> size t <= size post ->
  copyToSub (pre ++ post) pos (size t) t =
  Ok ((pre ++ t) ++ skipn (length t) post).
Proof.
  intros Hpre Hle. unfold copyToSub.
  rewrite in_bounds_true.
  - rewrite Z.eqb_refl. f_equal. unfold size in *.
    rewrite <- Hpre, Nat2Z.id, <- Nat2Z.inj_add, Nat2Z.id.
    rewrite firstn_app, firstn_all, Nat.sub_diag, firstn_O, app_nil_r.
    rewrite skipn_app, skipn_all2 by lia.
    replace (length pre + length t - length pre)%nat with (length t) by lia.
    now rewrite <- app_assoc.
  - unfold size in *. lia.
  - apply size_nonneg.
  - unfold size in *. rewrite length_app. lia.
Qed.

Lemma copyToSub_empty (buf : Tensor) (pos : Z) :
  0 <= pos -> copyToSub buf pos 0 [] = Ok buf.
Proof.
  intros Hpos. unfold copyToSub, in_bounds.
  rewrite (proj2 (Z.leb_le 0 pos)) by lia. simpl.
  rewrite Z.add_0_r. now rewrite firstn_skipn.
Qed.

Lemma size_0_nil (t : Tensor) : size t = 0 -> t = [].
Proof. destruct t; [reflexivity | unfold size; simpl; lia]. Qed.

Lemma fetch_loop {D} (devices : list D) (s : Z) (all : list Tensor) :
  0 <= s ->
  forall ts from pos Trem pre post,
  (forall k t, nth_error ts k = Some t -> nth_error all (from + k) = Some t) ->
  map size ts = map snd (shardRanges devices s 0 Trem) ->
  size post = Trem -> 0 <= pos -> (size pre = pos \/ Trem = 0) ->
  for_ (length devices) from (fetchParams_body s all) (pos, pre ++ post) =
  Ok (pos + Z.of_nat (length devices) * s,
      pre ++ concat ts ++ skipn (length (concat ts)) post).
Proof.
  intros Hs. induction devices as [|d ds IH];
    intros ts from pos Trem pre post Hall Hsizes Hpost Hpos Hinv.
  - destruct ts; [|discriminate]. simpl. repeat f_equal. lia.
  - destruct ts as [|t ts]; [discriminate |].
    cbn [shardRanges map snd] in Hsizes. injection Hsizes as Ht Hts.
    rewrite (shardRanges_sizes_pos ds s _ 0) in Hts.
    cbn [length for_]. unfold fetchParams_body at 1.
    rewrite (at_Some all from t) by (rewrite <- (Nat.add_0_r from); now apply Hall).
    cbn [bind].
    assert (Hstep : copyToSub (pre ++ post) pos (size t) t =
                    Ok ((pre ++ t) ++ skipn (length t) post)).
    { destruct Hinv as [Hpre | Hrem].
      - apply copyToSub_append; auto. lia.
      - assert (size t = 0) by lia.
        assert (post = []) by (apply size_0_nil; lia).
        rewrite (size_0_nil t) by assumption. subst post.
        change (size []) with 0. rewrite copyToSub_empty by exact Hpos.
        cbn [length skipn]. now rewrite !app_nil_r. }
    rewrite Hstep. cbn [bind].
    etransitivity;
      [apply (IH ts (S from) (pos + s) (Trem - Z.min s Trem) (pre ++ t)
                (skipn (length t) post)) |].
    6:{ f_equal. f_equal; [lia |].
      cbn [concat]. rewrite <- !app_assoc. f_equal. f_equal. f_equal.
      rewrite skipn_skipn, length_app. f_equal. lia. }
    + intros k x Hk. rewrite Nat.add_succ_comm. now apply Hall.
    + exact Hts.
    + unfold size in *. rewrite length_skipn. lia.
    + lia.
    + unfold size in *. rewrite length_app. lia.
Qed.

Section Fetch.
Context {C : Collaborators}.

Lemma fetchParams_overwrites (g : SyncGraphGroup) (buf : Tensor)
  (tensors : list Tensor) :
  0 <= shardSize_ g ->
  map size tensors =
    map snd (shardRanges (devices_ g) (shardSize_ g) 0 (size buf)) ->
  fetchParams g buf tensors =
  Ok (concat tensors ++ skipn (length (concat tensors)) buf).
Proof.
  intros Hs Hsizes. unfold fetchParams.
  pose proof (fetch_loop (devices_ g) (shardSize_ g) tensors Hs tensors 0%nat 0
                (size buf) [] buf) as H.
  cbn [app Nat.add] in H. unfold Tensor in *. rewrite H; auto; lia.
Qed.

Lemma size_concat (ts : list Tensor) :
  size (concat ts) = fold_right (fun t s => size t + s) 0 ts.
Proof.
  induction ts as [|t ts IH]; [reflexivity |].
  simpl. unfold size in *. rewrite length_app. lia.
Qed.

Lemma size_concat_same (ts ts' : list Tensor) :
  map size ts = map size ts' -> size (concat ts) = size (concat ts').
Proof.
  revert ts'. induction ts as [|t ts IH]; intros [|t' ts'] H; try discriminate; auto.
  injection H as Ht Hts. specialize (IH ts' Hts).
  rewrite !size_concat in *. simpl. rewrite Ht, IH. reflexivity.
Qed.

Lemma fetchParams_covers (g : SyncGraphGroup) (buf : Tensor)
  (tensors : list Tensor) :
  0 <= shardSize_ g ->
  map size tensors =
    map snd (shardRanges (devices_ g) (shardSize_ g) 0 (size buf)) ->
  size (concat tensors) = size buf ->
  fetchParams g buf tensors = Ok (concat tensors).
Proof.
  intros Hs Hsizes Hcover. rewrite fetchParams_overwrites by assumption.
  rewrite skipn_all2 by (unfold size in *; lia). now rewrite app_nil_r.
Qed.

(** C7.  With the moving average enabled, the validation branch hands
    [validate] replica 0 with the shadow values in place of its parameters,
    and returns with the parameters of replica 0 equal to what they were
    before, the concatenation of the live shards; in the state it returns
    only the scheduler and what [validate] did to the rest of graph 0
    differ from the state before: shard buffers, optimizers, the other
    replicas and the disk are the same. *)
Theorem validation_restores_live_parameters (g : SyncGraphGroup)
  (s : Scheduler) (graph0 : ExpressionGraph) (rest : list ExpressionGraph) :
  movingAvg_ g = true ->
  scheduler_ g = Some s ->
  graphs_ g = graph0 :: rest ->
  shards_cover g graph0 ->
  let seen := set_vals graph0 (concat (paramsAvg_ g)) in
  validation g =
  Ok (with_graphs (with_scheduler g (Some (fst (validate s seen))))
        (set_vals (snd (validate s seen)) (vals graph0) :: rest)) /\
  vals graph0 = concat (params_ g).
Proof.
  intros Hma Hsched Hgraphs (Hs & Hsizes & Havg & Hvals) seen.
  split; [| exact Hvals].
  assert (Hsz : size (concat (paramsAvg_ g)) = size (vals graph0))
    by (rewrite Hvals; now apply size_concat_same).
  pose proof (validate_size s seen) as Hv.
  unfold validation. rewrite Hma.
  unfold fetchInto at 1. rewrite Hgraphs. cbn [at_ nth_error bind].
  rewrite fetchParams_covers; auto; [| congruence].
  cbn [bind upd]. unfold deref_scheduler. cbn [scheduler_ with_graphs].
  rewrite Hsched. cbn [bind graphs_ at_ nth_error with_graphs].
  change (set_vals graph0 (concat (paramsAvg_ g))) with seen.
  destruct (validate s seen) as [s' graph0'].
  cbn [bind upd movingAvg_ with_graphs with_scheduler fst snd] in *.
  rewrite Hma. unfold fetchInto.
  cbn [graphs_ with_graphs with_scheduler at_ nth_error bind params_].
  assert (Hsz' : size (vals graph0') = size (vals graph0)).
  { unfold size. rewrite Hv. unfold seen. cbn [vals set_vals].
    fold (size (concat (paramsAvg_ g))). fold (size (vals graph0)). exact Hsz. }
  rewrite fetchParams_covers.
  - cbn [bind upd]. rewrite <- Hvals. reflexivity.
  - exact Hs.
  - cbn [shardSize_ devices_ with_graphs with_scheduler].
    rewrite Hsz'. exact Hsizes.
  - rewrite Hsz'. now rewrite <- Hvals.
Qed.
End Fetch.

Section Save.
Context {C : Collaborators}.


Lemma with_graphs_same (g : SyncGraphGroup) : with_graphs g (graphs_ g) = g.
Proof. destruct g; reflexivity. Qed.


End Save.

(** ** [load] *)

Section Load.
Context {C : Collaborators}.

Lemma load_graphs_each (init : string) (d : Disk) :
  forall graphs i graphs',
  load_graphs graphs i init d = Ok graphs' ->
  length graphs' = length graphs /\
  forall k graph, nth_error graphs k = Some graph ->
    exists graph', model_load (i + k) graph init d = Ok graph' /\
                   nth_error graphs' k = Some graph'.
Proof.
  induction graphs as [|g rest IH]; intros i graphs' H; simpl in H.
  - injection H as <-. split; [reflexivity |]. intros [|k] graph Hk; discriminate.
  - inv_ok H. injection H as <-. destruct (IH _ _ E0) as [Hl Hk].
    split; [simpl; congruence |].
    intros [|k] graph Hg; simpl in Hg.
    + injection Hg as <-. rewrite Nat.add_0_r. eauto.
    + destruct (Hk k graph Hg) as (graph' & Hm & Hn).
      exists graph'. rewrite Nat.add_succ_r. split; assumption.
Qed.

(** C9.  [load] returns the group unchanged, and without an error, when
    reload is disabled or no file exists at the model path.  When reload is
    enabled and the file exists, it restores the scheduler (when one is
    set), then loads the checkpoint into every replica, each through its
    own builder, and changes nothing else; a failure of a collaborator is
    the result of [load]. *)
Theorem load_only_with_reload_and_checkpoint (g : SyncGraphGroup) :
  let init := opt_model (options_ g) in
  (opt_no_reload (options_ g) = true \/ file_exists (disk_ g) init = false ->
   load g = Ok g) /\
  (opt_no_reload (options_ g) = false -> file_exists (disk_ g) init = true ->
   load g =
   (sched <- load_scheduler g init ;;
    graphs' <- load_graphs (graphs_ g) 0 init (disk_ g) ;;
    Ok (with_graphs (with_scheduler g sched) graphs')) /\
   forall g', load g = Ok g' ->
     match scheduler_ g with
     | Some s => exists s', sched_load s init (disk_ g) = Ok s' /\
                            scheduler_ g' = Some s'
     | None => scheduler_ g' = None
     end /\
     length (graphs_ g') = length (graphs_ g) /\
     (forall i graph, nth_error (graphs_ g) i = Some graph ->
        exists graph', model_load i graph init (disk_ g) = Ok graph' /\
                       nth_error (graphs_ g') i = Some graph') /\
     g' = with_graphs (with_scheduler g (scheduler_ g')) (graphs_ g')).
Proof.
  intros init. split.
  - intros [H | H]; unfold load.
    + now rewrite H.
    + fold init. rewrite H. now destruct (opt_no_reload (options_ g)).
  - intros Hr He.
    assert (Hload : load g =
      (sched <- load_scheduler g init ;;
       graphs' <- load_graphs (graphs_ g) 0 init (disk_ g) ;;
       Ok (with_graphs (with_scheduler g sched) graphs')))
      by (unfold load; fold init; now rewrite Hr, He).
    split; [exact Hload |].
    intros g' H. rewrite Hload in H. inv_ok H. injection H as <-.
    cbn [scheduler_ graphs_ with_graphs with_scheduler].
    destruct (load_graphs_each _ _ _ _ _ E0) as [Hl Hk].
    split; [| split; [exact Hl | split; [exact Hk | reflexivity]]].
    unfold load_scheduler in E. destruct (scheduler_ g) as [s|].
    + inv_ok E. injection E as <-. eauto.
    + now injection E as <-.
Qed.
End Load.

(** ** A step without a scheduler *)

Section NoScheduler.
Context {C : Collaborators}.

Lemma init_shards_setup (g g' : SyncGraphGroup) :
  init_shards g = Ok g' -> same_setup g g'.
Proof.
  unfold init_shards. intros H. inv_ok H; injection H as <-; repeat split.
Qed.

Lemma init_avg_setup (g g' : SyncGraphGroup) :
  init_avg g = Ok g' -> same_setup g g'.
Proof.
  unfold init_avg. intros H. inv_ok H; injection H as <-; repeat split.
Qed.

Lemma lazy_init_setup (g g' : SyncGraphGroup) (batches : list Batch) :
  lazy_init g batches = Ok g' -> same_setup g g'.
Proof.
  unfold lazy_init. intros H. inv_ok H. injection H as <-.
  destruct (init_shards_setup _ _ E0) as (A1 & A2 & A3).
  destruct (init_avg_setup _ _ E1) as (B1 & B2 & B3).
  repeat split; cbn [scheduler_ movingAvg_ devices_ with_first with_graphs] in *;
    congruence.
Qed.

Lemma compute_phase_setup (g g' : SyncGraphGroup) (batches : list Batch) costs :
  compute_phase g batches = Ok (g', costs) -> same_setup g g'.
Proof.
  unfold compute_phase. intros H. inv_ok H. injection H as <- <-. repeat split.
Qed.

Lemma reduce_task_needs_scheduler (batches : list Batch) idx pos
  (g g' : SyncGraphGroup) :
  movingAvg_ g = true -> reduce_task batches idx pos g = Ok g' ->
  scheduler_ g <> None.
Proof.
  unfold reduce_task. intros Hma H Hn. rewrite Hma in H. inv_ok H.
  match goal with
  | D : bind (at_ (paramsAvg_ g) idx) _ = Ok _ |- _ => inv_ok D
  end.
  match goal with
  | D : deref_scheduler g = Ok _ |- _ =>
      unfold deref_scheduler in D; rewrite Hn in D; discriminate D
  end.
Qed.

Lemma update_needs_scheduler_for_moving_average (g : SyncGraphGroup)
  (batch : Batch) :
  movingAvg_ g = true -> scheduler_ g = None -> devices_ g <> [] ->
  forall g', update g batch <> Ok g'.
Proof.
  intros Hma Hs Hd g' H. unfold update, execute in H.
  apply bind_Ok in H. destruct H as ([g3 costs] & E & _).
  unfold execute_to_broadcast in E.
  apply bind_Ok in E. destruct E as (g1 & E1 & E).
  apply bind_Ok in E. destruct E as ([g2 costs2] & E2 & E).
  apply bind_Ok in E. destruct E as (g3' & E3 & _).
  assert (S1 : same_setup g g1).
  { destruct (first_ g).
    - eapply lazy_init_setup; eauto.
    - injection E1 as <-. repeat split. }
  pose proof (compute_phase_setup _ _ _ _ E2) as S2.
  destruct S1 as (A1 & A2 & A3), S2 as (B1 & B2 & B3).
  unfold reduce_phase in E3. apply bind_Ok in E3. destruct E3 as (r & E3 & _).
  assert (Hd2 : devices_ g2 <> []) by (rewrite B3, A3; exact Hd).
  destruct (devices_ g2) as [|d ds]; [now elim Hd2 |].
  cbn [length for_] in E3. apply bind_Ok in E3. destruct E3 as (r1 & E3 & _).
  unfold reduce_body in E3. apply bind_Ok in E3. destruct E3 as (g4 & E3 & _).
  assert (M : movingAvg_ g2 = true) by congruence.
  assert (Sn : scheduler_ g2 = None) by congruence.
  exact (reduce_task_needs_scheduler _ _ _ _ _ M E3 Sn).
Qed.
End NoScheduler.

(** * Properties of whole steps *)

(** ** The shard table *)

Lemma shardRanges_nth {D} (devices : list D) (s : Z) :
  0 <= s -> forall pos T k, 0 <= T -> (k < length devices)%nat ->
  nth_error (shardRanges devices s pos T) k =
  Some (pos + Z.min (Z.of_nat k * s) T,
        Z.min s (T - Z.min (Z.of_nat k * s) T)).
Proof.
  intros Hs. induction devices as [|d ds IH]; intros pos T k HT Hk;
    [cbn in Hk; lia |].
  destruct k as [|k]; cbn [shardRanges nth_error].
  - change (Z.of_nat 0 * s) with 0. do 2 f_equal; lia.
  - rewrite IH by (cbn in Hk; lia). f_equal.
    assert (Hk0 : 0 <= Z.of_nat k * s) by nia.
    replace (Z.of_nat (S k) * s) with (Z.of_nat k * s + s) by lia.
    generalize dependent (Z.of_nat k * s). intros x Hx. f_equal; lia.
Qed.

(** X1.  The shard table that the first step computes from a shard size
    [s >= 0] for [T >= 0] parameters on [N] devices: entry [k] is the
    range [[min(k s, T), min((k + 1) s, T))]; the ranges follow one another
    from 0, are pairwise disjoint, none is longer than [s], and together
    they cover exactly the offsets below [min(T, N s)], so that they split
    [[0, T)] exactly when [T <= N s]. *)
Theorem shard_table_ranges {D} (devices : list D) (s T : Z) :
  0 <= s -> 0 <= T ->
  let ranges := shardRanges devices s 0 T in
  let N := Z.of_nat (length devices) in
  (forall k, (k < length devices)%nat ->
     nth_error ranges k =
     Some (Z.min (Z.of_nat k * s) T,
           Z.min (Z.of_nat (S k) * s) T - Z.min (Z.of_nat k * s) T)) /\
  length ranges = length devices /\
  contiguous ranges 0 /\ pairwise_disjoint ranges /\
  (forall r, In r ranges -> 0 <= snd r <= s) /\
  (forall i, covered ranges i <-> 0 <= i < Z.min T (N * s)) /\
  (partitions ranges T <-> T <= N * s).
Proof.
  intros Hs HT ranges N.
  pose proof (shardRanges_contiguous devices s Hs 0 T HT) as Hc. fold ranges in Hc.
  assert (Hcov : forall i, covered ranges i <-> 0 <= i < Z.min T (N * s)).
  { intros i. rewrite (covered_contiguous _ _ i Hc). unfold ranges.
    rewrite shardRanges_total by lia. fold N. lia. }
  split.
  { intros k Hk. unfold ranges. rewrite shardRanges_nth by assumption.
    assert (Hk0 : 0 <= Z.of_nat k * s) by nia.
    replace (Z.of_nat (S k) * s) with (Z.of_nat k * s + s) by lia.
    generalize dependent (Z.of_nat k * s). intros x Hx. do 2 f_equal; lia. }
  split; [apply shardRanges_length |].
  split; [exact Hc |].
  split; [eapply contiguous_disjoint; eauto |].
  split.
  { intros r Hr. apply In_nth_error in Hr. destruct Hr as (k & Hk).
    assert (Hlt : (k < length devices)%nat).
    { rewrite <- (shardRanges_length devices s 0 T). apply nth_error_Some.
      fold ranges. congruence. }
    unfold ranges in Hk. rewrite shardRanges_nth in Hk by assumption.
    injection Hk as <-. cbn [snd].
    assert (Hk0 : 0 <= Z.of_nat k * s) by nia. lia. }
  split; [exact Hcov |].
  split.
  - intros (_ & _ & Hp).
    destruct (Z_le_gt_dec T (N * s)) as [Hle|Hgt]; [exact Hle |].
    assert (Hi : 0 <= N * s < T) by (split; [unfold N; nia | lia]).
    apply Hp in Hi. apply Hcov in Hi. lia.
  - intros Hle. split; [exact Hc |]. split; [eapply contiguous_disjoint; eauto |].
    intros i. rewrite Hcov. lia.
Qed.

(** ** The first step *)

Lemma to_int_small z : - 2 ^ 31 <= z < 2 ^ 31 -> to_int z = z.
Proof.
  intros H. unfold to_int. rewrite Z.mod_small; lia.
Qed.

Lemma firstn_plus {A} (l : list A) : forall a b,
  firstn (a + b) l = firstn a l ++ firstn b (skipn a l).
Proof.
  induction l as [|x l IH]; intros [|a] b; cbn [Nat.add firstn skipn app];
    auto.
  - now rewrite !firstn_nil.
  - now rewrite IH.
Qed.

Lemma slice_split (t : Tensor) pos n m :
  0 <= pos -> 0 <= n -> 0 <= m ->
  slice t pos (n + m) = slice t pos n ++ slice t (pos + n) m.
Proof.
  intros Hp Hn Hm. unfold slice.
  rewrite !Z2Nat.inj_add by lia. rewrite firstn_plus, skipn_skipn.
  now rewrite (Nat.add_comm (Z.to_nat n)).
Qed.

Lemma slice_from_0 (t : Tensor) n : slice t 0 n = firstn (Z.to_nat n) t.
Proof. reflexivity. Qed.

(** The slices of contiguous ranges make up one slice. *)
Lemma concat_slices (t : Tensor) : forall ranges from,
  0 <= from -> contiguous ranges from ->
  concat (map (fun r => slice t (fst r) (snd r)) ranges) =
  slice t from (total_size ranges).
Proof.
  induction ranges as [|[pos n] rest IH]; intros from Hf Hc.
  - cbn. unfold slice. reflexivity.
  - cbn [contiguous fst snd] in Hc. destruct Hc as (-> & Hn & Hrest).
    cbn [map concat total_size fold_right fst snd].
    rewrite (IH (from + n)) by (auto; lia).
    fold (total_size rest).
    assert (0 <= total_size rest).
    { clear - Hrest. revert Hrest. generalize (from + n).
      induction rest as [|r rest IH]; cbn; [lia |].
      intros z (_ & Hr & Hc). specialize (IH _ Hc). unfold total_size in IH. lia. }
    now rewrite slice_split.
Qed.

Lemma shardRanges_inbounds_contiguous {D} (devices : list D) s : forall pos T,
  (forall r, In r (shardRanges devices s pos T) -> 0 <= snd r) ->
  contiguous (shardRanges devices s pos T) pos.
Proof.
  induction devices as [|d ds IH]; intros pos T H; cbn; [exact I |].
  split; [reflexivity |]. split.
  - apply (H (pos, Z.min s T)). now left.
  - apply IH. intros r Hr. apply H. now right.
Qed.

Section FirstStep.
Context {C : Collaborators}.

Lemma init_others_length (batches : list Batch) (first : Tensor) :
  forall graphs i graphs',
  init_others graphs i batches first = Ok graphs' ->
  length graphs' = length graphs.
Proof.
  induction graphs as [|graph rest IH]; intros i graphs' H.
  - injection H as <-. reflexivity.
  - cbn [init_others] in H. inv_ok H. injection H as <-.
    cbn [length]. f_equal. eapply IH; eauto.
Qed.

Lemma init_replicas_spec (graphs graphs' : list ExpressionGraph)
  (batches : list Batch) :
  init_replicas graphs batches = Ok graphs' ->
  length graphs' = length graphs /\
  match graphs' with
  | [] => graphs = []
  | graph0 :: _ => all_vals (vals graph0) graphs'
  end.
Proof.
  destruct graphs as [|graph0 rest]; cbn [init_replicas]; intros H.
  - injection H as <-. auto.
  - inv_ok H. injection H as <-. cbn [length]. split.
    + f_equal. eapply init_others_length; eauto.
    + constructor; [reflexivity |]. eapply init_others_vals; eauto.
Qed.

Lemma alloc_shards_spec (vals0 : Tensor) : forall ranges shards,
  alloc_shards vals0 ranges = Ok shards ->
  (forall r, In r ranges -> in_bounds (size vals0) (fst r) (snd r) = true) /\
  shards =
    map (fun r => (slice vals0 (fst r) (snd r), allocate (snd r), allocate (snd r)))
      ranges.
Proof.
  induction ranges as [|[pos n] rest IH]; intros shards H.
  - injection H as <-. split; [intros r [] | reflexivity].
  - cbn [alloc_shards] in H.
    apply bind_Ok in H. destruct H as (sub & Hsub & H).
    apply bind_Ok in H. destruct H as (param & Hparam & H).
    apply bind_Ok in H. destruct H as (rest' & Hrest & H).
    injection H as <-.
    destruct (IH _ Hrest) as (Hb & ->).
    unfold subtensor in Hsub.
    destruct (in_bounds (size vals0) pos n) eqn:Eb; [| discriminate].
    injection Hsub as <-.
    unfold copyFrom in Hparam.
    destruct (size (allocate n) =? _); [| discriminate].
    injection Hparam as <-.
    split.
    + intros r [<- | Hr]; [exact Eb | now apply Hb].
    + reflexivity.
Qed.

Lemma alloc_avg_spec {D} (params : list Tensor) :
  forall (devices : list D) i s T avgs,
  alloc_avg devices i s T params = Ok avgs ->
  length avgs = length devices /\
  forall k, (k < length devices)%nat ->
    nth_error avgs k = nth_error params (i + k) /\
    nth_error params (i + k) <> None.
Proof.
  induction devices as [|d ds IH]; intros i s T avgs H.
  - injection H as <-. split; [reflexivity | cbn; lia].
  - cbn [alloc_avg] in H.
    apply bind_Ok in H. destruct H as (p & Hp & H).
    apply bind_Ok in H. destruct H as (avg & Havg & H).
    apply bind_Ok in H. destruct H as (rest & Hrest & H).
    injection H as <-.
    unfold copyFrom in Havg.
    destruct (size (allocate (Z.min s T)) =? size p); [| discriminate].
    injection Havg as <-.
    destruct (IH _ _ _ _ Hrest) as (Hl & Hk).
    split; [cbn; now rewrite Hl |].
    intros [|k] Hlt.
    + rewrite Nat.add_0_r. apply at_inv in Hp. rewrite Hp. split; [reflexivity | congruence].
    + cbn [nth_error]. rewrite Nat.add_succ_r. apply Hk. cbn in Hlt. lia.
Qed.

End FirstStep.

Section Fresh.
Context {C : Collaborators}.

(** X2.  A group is fresh as the constructor leaves it, with [first_]
    set, and stays so through [setScheduler] and [load]: whatever is done
    before the first [update], its first-step initialization starts from
    no shard, one replica and one optimizer per device. *)
Theorem group_is_fresh_until_first_update (options : Config) (disk : Disk) :
  (fresh (new_group options disk) /\ first_ (new_group options disk) = true) /\
  (forall g s,
     fresh g -> fresh (setScheduler g s) /\ first_ (setScheduler g s) = first_ g) /\
  (forall g g', fresh g -> load g = Ok g' -> fresh g' /\ first_ g' = first_ g).
Proof.
  split; [| split].
  - unfold fresh, new_group. cbn. rewrite !length_map. repeat split.
  - intros g s H. split; [exact H | reflexivity].
  - intros g g' (Fp & Fg & Ft & Fa & Flg & Flo) H. unfold load in H.
    destruct (negb (opt_no_reload (options_ g)));
      [| injection H as <-; repeat split; assumption].
    destruct (file_exists (disk_ g) (opt_model (options_ g)));
      [| injection H as <-; repeat split; assumption].
    apply bind_Ok in H. destruct H as (sched & _ & H).
    apply bind_Ok in H. destruct H as (graphs' & Hl & H).
    injection H as <-.
    apply load_graphs_each in Hl. destruct Hl as (Hlen & _).
    unfold fresh. cbn. repeat split; try assumption. congruence.
Qed.

End Fresh.

Section FirstStepSpec.
Context {C : Collaborators}.

Lemma with_paramsAvg_same (g : SyncGraphGroup) :
  with_paramsAvg g (paramsAvg_ g) = g.
Proof. destruct g; reflexivity. Qed.

Lemma init_shards_spec (g g' : SyncGraphGroup) :
  params_ g = [] -> grads_ g = [] -> tmpTensors_ g = [] ->
  init_shards g = Ok g' ->
  exists graph0 rest,
    graphs_ g = graph0 :: rest /\
    computeShardSize (to_int (size (vals graph0))) (length (devices_ g)) =
      Ok (shardSize_ g') /\
    (forall r,
       In r (shardRanges (devices_ g) (shardSize_ g') 0
               (to_int (size (vals graph0)))) ->
       in_bounds (size (vals graph0)) (fst r) (snd r) = true) /\
    params_ g' =
      map (fun r => slice (vals graph0) (fst r) (snd r))
        (shardRanges (devices_ g) (shardSize_ g') 0
           (to_int (size (vals graph0)))) /\
    grads_ g' =
      map (fun r => allocate (snd r))
        (shardRanges (devices_ g) (shardSize_ g') 0
           (to_int (size (vals graph0)))) /\
    tmpTensors_ g' =
      map (fun r => allocate (snd r))
        (shardRanges (devices_ g) (shardSize_ g') 0
           (to_int (size (vals graph0)))) /\
    g' = with_tmpTensors
           (with_grads
              (with_params (with_shardSize g (shardSize_ g')) (params_ g'))
              (grads_ g'))
           (tmpTensors_ g').
Proof.
  intros Fp Fg Ft H. unfold init_shards in H.
  rewrite Fp, Fg, Ft in H. cbn [length Nat.eqb app] in H.
  apply bind_Ok in H. destruct H as (graph0 & Hg0 & H).
  apply bind_Ok in H. destruct H as (s & Hs & H).
  apply bind_Ok in H. destruct H as (shards & Hal & H).
  injection H as <-.
  apply at_inv in Hg0.
  destruct (graphs_ g) as [|graph0' rest] eqn:Eg; [discriminate |].
  injection Hg0 as ->.
  destruct (alloc_shards_spec _ _ _ Hal) as (Hb & ->).
  exists graph0, rest.
  cbn [shardSize_ params_ grads_ tmpTensors_ with_tmpTensors with_grads
         with_params with_shardSize].
  rewrite !map_map. cbn [fst snd].
  split; [reflexivity |]. split; [exact Hs |]. split; [exact Hb |].
  split; [reflexivity |]. split; [reflexivity |]. split; reflexivity.
Qed.

Lemma init_avg_spec (g g' : SyncGraphGroup) :
  paramsAvg_ g = [] -> length (params_ g) = length (devices_ g) ->
  init_avg g = Ok g' ->
  paramsAvg_ g' = (if movingAvg_ g then params_ g else []) /\
  g' = with_paramsAvg g (paramsAvg_ g').
Proof.
  intros Fa Hlen H. unfold init_avg in H. rewrite Fa in H.
  cbn [length Nat.eqb app] in H.
  destruct (movingAvg_ g); cbn [andb] in H.
  - apply bind_Ok in H. destruct H as (graph0 & _ & H).
    apply bind_Ok in H. destruct H as (avgs & Halloc & H).
    injection H as <-. cbn [paramsAvg_ with_paramsAvg].
    split; [| reflexivity].
    destruct (alloc_avg_spec _ _ _ _ _ _ Halloc) as (Hl & Hk).
    apply nth_error_ext. intros k.
    destruct (Nat.ltb_spec k (length (devices_ g))) as [Hlt|Hge].
    + now apply Hk.
    + transitivity (@None Tensor); [| symmetry]; apply nth_error_None; lia.
  - injection H as <-. split; [exact Fa |].
    symmetry. apply with_paramsAvg_same.
Qed.

Lemma lazy_init_spec (g g' : SyncGraphGroup) (batches : list Batch) :
  fresh g -> lazy_init g batches = Ok g' ->
  exists graph0 rest,
    graphs_ g' = graph0 :: rest /\
    all_vals (vals graph0) (graphs_ g') /\
    length (graphs_ g') = length (devices_ g) /\
    computeShardSize (to_int (size (vals graph0))) (length (devices_ g)) =
      Ok (shardSize_ g') /\
    (forall r,
       In r (shardRanges (devices_ g) (shardSize_ g') 0
               (to_int (size (vals graph0)))) ->
       in_bounds (size (vals graph0)) (fst r) (snd r) = true) /\
    params_ g' =
      map (fun r => slice (vals graph0) (fst r) (snd r))
        (shardRanges (devices_ g) (shardSize_ g') 0
           (to_int (size (vals graph0)))) /\
    grads_ g' =
      map (fun r => allocate (snd r))
        (shardRanges (devices_ g) (shardSize_ g') 0
           (to_int (size (vals graph0)))) /\
    tmpTensors_ g' =
      map (fun r => allocate (snd r))
        (shardRanges (devices_ g) (shardSize_ g') 0
           (to_int (size (vals graph0)))) /\
    paramsAvg_ g' = (if movingAvg_ g then params_ g' else []) /\
    first_ g' = false /\ devices_ g' = devices_ g /\
    movingAvg_ g' = movingAvg_ g /\ scheduler_ g' = scheduler_ g /\
    shardOpt_ g' = shardOpt_ g /\ options_ g' = options_ g /\
    mvDecay_ g' = mvDecay_ g /\ disk_ g' = disk_ g.
Proof.
  intros (Fp & Fg & Ft & Fa & Flg & Flo) H.
  unfold lazy_init in H.
  apply bind_Ok in H. destruct H as (graphs' & Hrep & H).
  apply bind_Ok in H. destruct H as (g1 & Hsh & H).
  apply bind_Ok in H. destruct H as (g2 & Hav & H).
  injection H as <-.
  destruct (init_replicas_spec _ _ _ Hrep) as (Hlen & Hall).
  destruct (init_shards_spec (with_graphs g graphs') g1 Fp Fg Ft Hsh)
    as (graph0 & rest & Hgr & Hs & Hb & Hp & Hg & Ht & E1).
  cbn [graphs_ devices_ with_graphs] in Hgr, Hs, Hb, Hp, Hg, Ht.
  assert (F1 : paramsAvg_ g1 = [] /\ devices_ g1 = devices_ g /\
               movingAvg_ g1 = movingAvg_ g /\ graphs_ g1 = graphs' /\
               scheduler_ g1 = scheduler_ g /\ shardOpt_ g1 = shardOpt_ g /\
               options_ g1 = options_ g /\ mvDecay_ g1 = mvDecay_ g /\
               disk_ g1 = disk_ g).
  { rewrite E1. cbn. rewrite Fa. repeat split. }
  destruct F1 as (Fa1 & Fd1 & Fm1 & Fgr1 & Fs1 & Fo1 & Fop1 & Fv1 & Fk1).
  assert (Hlp : length (params_ g1) = length (devices_ g1)).
  { rewrite Hp, Fd1, length_map. apply shardRanges_length. }
  destruct (init_avg_spec _ _ Fa1 Hlp Hav) as (Ha & E2).
  assert (F2 : params_ g2 = params_ g1 /\ grads_ g2 = grads_ g1 /\
               tmpTensors_ g2 = tmpTensors_ g1 /\
               shardSize_ g2 = shardSize_ g1 /\ devices_ g2 = devices_ g1 /\
               movingAvg_ g2 = movingAvg_ g1 /\ graphs_ g2 = graphs_ g1 /\
               scheduler_ g2 = scheduler_ g1 /\ shardOpt_ g2 = shardOpt_ g1 /\
               options_ g2 = options_ g1 /\ mvDecay_ g2 = mvDecay_ g1 /\
               disk_ g2 = disk_ g1).
  { rewrite E2. cbn. repeat split. }
  destruct F2 as (Gp & Gg & Gt & Gz & Gd & Gm & Ggr & Gs & Go & Gop & Gv & Gk).
  cbn [graphs_ params_ grads_ tmpTensors_ paramsAvg_ first_ devices_ movingAvg_
         scheduler_ shardOpt_ options_ mvDecay_ disk_ shardSize_ with_first].
  rewrite Gp, Gg, Gt, Gz, Gd, Gm, Ggr, Gs, Go, Gop, Gv, Gk.
  rewrite Fd1, Fm1, Fgr1, Fs1, Fo1, Fop1, Fv1, Fk1, Ha, Fm1.
  rewrite Hgr in Hall, Hlen |- *.
  exists graph0, rest.
  split; [reflexivity |].
  split; [exact Hall |].
  split; [rewrite <- Flg; exact Hlen |].
  split; [exact Hs |]. split; [exact Hb |].
  split; [exact Hp |]. split; [exact Hg |]. split; [exact Ht |].
  repeat split.
Qed.

End FirstStepSpec.

Lemma size_allocate n : 0 <= n -> size (allocate n) = n.
Proof. intros H. unfold size, allocate. rewrite repeat_length. lia. Qed.

Lemma size_slice t pos n :
  in_bounds (size t) pos n = true -> size (slice t pos n) = n.
Proof.
  intros H. unfold size. rewrite slice_length by exact H.
  apply in_bounds_inv in H. lia.
Qed.

Lemma Forall_all_vals_size v graphs :
  all_vals v graphs ->
  forall graph : ExpressionGraph, In graph graphs -> vals graph = v.
Proof. intros H. apply Forall_forall. exact H. Qed.

Section FirstStepFacts.
Context {C : Collaborators}.

(** What the first-step initialization leaves, for a model of fewer than
    [2^31] parameters. *)
Lemma lazy_init_shards (g g' : SyncGraphGroup) (batches : list Batch) :
  fresh g -> lazy_init g batches = Ok g' ->
  (forall graph, In graph (graphs_ g') -> size (vals graph) < 2 ^ 31) ->
  exists v,
    let ranges := shardRanges (devices_ g) (shardSize_ g') 0 (size v) in
    all_vals v (graphs_ g') /\
    graphs_ g' <> [] /\
    0 <= shardSize_ g' /\
    computeShardSize (size v) (length (devices_ g)) = Ok (shardSize_ g') /\
    params_ g' = map (fun r => slice v (fst r) (snd r)) ranges /\
    map size (params_ g') = map snd ranges /\
    concat (params_ g') =
      firstn (Z.to_nat (Z.min (size v)
                          (Z.of_nat (length (devices_ g)) * shardSize_ g'))) v /\
    map size (grads_ g') = map size (params_ g') /\
    map size (tmpTensors_ g') = map size (params_ g') /\
    paramsAvg_ g' = (if movingAvg_ g then params_ g' else []) /\
    length (graphs_ g') = length (devices_ g) /\
    length (shardOpt_ g') = length (devices_ g) /\
    first_ g' = false /\ devices_ g' = devices_ g /\
    movingAvg_ g' = movingAvg_ g /\ scheduler_ g' = scheduler_ g.
Proof.
  intros Hfresh H Hsmall.
  destruct (lazy_init_spec g g' batches Hfresh H)
    as (graph0 & rest & Hgr & Hall & Hlen & Hs & Hb & Hp & Hg & Ht & Ha & Hf &
        Hd & Hm & Hsc & Ho & _).
  assert (HT : to_int (size (vals graph0)) = size (vals graph0)).
  { apply to_int_small. split.
    - pose proof (size_nonneg (vals graph0)). lia.
    - apply Hsmall. rewrite Hgr. now left. }
  rewrite HT in *.
  set (T := size (vals graph0)) in *.
  set (s := shardSize_ g') in *.
  set (ranges := shardRanges (devices_ g) s 0 T) in *.
  assert (HT0 : 0 <= T) by apply size_nonneg.
  assert (Hnn : forall r, In r ranges -> 0 <= snd r).
  { intros r Hr. specialize (Hb r Hr). apply in_bounds_inv in Hb. lia. }
  assert (Hs0 : 0 <= s).
  { destruct (devices_ g) as [|d ds] eqn:Ed.
    - rewrite Hgr in Hlen. discriminate.
    - specialize (Hnn (0, Z.min s T)). cbn [snd] in Hnn.
      assert (0 <= Z.min s T) by (apply Hnn; unfold ranges; cbn; now left).
      lia. }
  assert (Hsz : map size (params_ g') = map snd ranges).
  { rewrite Hp, map_map. apply map_ext_in. intros r Hr. apply size_slice.
    apply Hb, Hr. }
  assert (Hal : map size (map (fun r => allocate (snd r)) ranges) = map snd ranges).
  { rewrite map_map. apply map_ext_in. intros r Hr. apply size_allocate. auto. }
  exists (vals graph0). cbn zeta. fold T. fold ranges.
  split; [exact Hall |]. split; [rewrite Hgr; discriminate |].
  split; [exact Hs0 |]. split; [exact Hs |]. split; [exact Hp |].
  split; [exact Hsz |].
  split.
  { rewrite Hp.
    rewrite (concat_slices (vals graph0) ranges 0); [| lia |].
    - unfold ranges. rewrite shardRanges_total by assumption. apply slice_from_0.
    - apply shardRanges_inbounds_contiguous. exact Hnn. }
  split; [now rewrite Hg, Hal, Hsz |]. split; [now rewrite Ht, Hal, Hsz |].
  split; [exact Ha |]. split; [exact Hlen |].
  split; [rewrite Ho; apply Hfresh |].
  auto.
Qed.

Lemma lazy_init_fits (g g' : SyncGraphGroup) (batches : list Batch) v :
  all_vals v (graphs_ g') ->
  map size (params_ g') =
    map snd (shardRanges (devices_ g) (shardSize_ g') 0 (size v)) ->
  concat (params_ g') =
    firstn (Z.to_nat (Z.min (size v)
                        (Z.of_nat (length (devices_ g)) * shardSize_ g'))) v ->
  map size (grads_ g') = map size (params_ g') ->
  map size (tmpTensors_ g') = map size (params_ g') ->
  paramsAvg_ g' = (if movingAvg_ g then params_ g' else []) ->
  length (graphs_ g') = length (devices_ g) ->
  length (shardOpt_ g') = length (devices_ g) ->
  devices_ g' = devices_ g -> movingAvg_ g' = movingAvg_ g ->
  fits g' (size v).
Proof.
  intros Hall Hsz Hcat Hg Ht Ha Hlg Hlo Hd Hm.
  unfold fits. rewrite Hd, Hm.
  split; [exact Hlg |].
  split.
  { rewrite <- (length_map size), Hsz, length_map. apply shardRanges_length. }
  split; [exact Hlo |]. split; [exact Hg |]. split; [exact Ht |].
  split; [intros E; rewrite Ha, E; reflexivity |].
  split.
  { intros graph Hin. now rewrite (Forall_all_vals_size _ _ Hall graph Hin). }
  rewrite Hcat. unfold size. rewrite length_firstn. lia.
Qed.

End FirstStepFacts.

Section FirstStepTheorems.
Context {C : Collaborators}.

(** X3.  When the first-step initialization of a freshly constructed group
    gets through, on a model of fewer than [2^31] parameters: every replica
    holds the parameters [v] of replica 0; shard [k] is the slice of [v]
    that entry [k] of the shard table names; the shards together are the
    first [min(T, N * shardSize_)] parameters of [v]; the shadows are
    copies of the live shards with the moving average and absent without
    it; the shards fit the model, and [first_] is cleared. *)
Theorem first_step_cuts_shards_from_replica_0 (g g' : SyncGraphGroup)
  (batches : list Batch) :
  fresh g -> lazy_init g batches = Ok g' ->
  (forall graph, In graph (graphs_ g') -> size (vals graph) < 2 ^ 31) ->
  exists v,
    all_vals v (graphs_ g') /\
    computeShardSize (size v) (length (devices_ g)) = Ok (shardSize_ g') /\
    params_ g' =
      map (fun r => slice v (fst r) (snd r))
        (shardRanges (devices_ g) (shardSize_ g') 0 (size v)) /\
    concat (params_ g') =
      firstn (Z.to_nat (Z.min (size v)
                          (Z.of_nat (length (devices_ g)) * shardSize_ g'))) v /\
    paramsAvg_ g' = (if movingAvg_ g then params_ g' else []) /\
    fits g' (size v) /\ first_ g' = false.
Proof.
  intros Hfresh H Hsmall.
  destruct (lazy_init_shards g g' batches Hfresh H Hsmall)
    as (v & Hall & _ & _ & Hs & Hp & Hsz & Hcat & Hg & Ht & Ha & Hlg & Hlo & Hf &
        Hd & Hm & _).
  exists v. split; [exact Hall |]. split; [exact Hs |]. split; [exact Hp |].
  split; [exact Hcat |]. split; [exact Ha |].
  split; [| exact Hf].
  eapply lazy_init_fits; eauto.
Qed.

(** X4.  If moreover the shard size reaches [ceil(T / N)], that is
    [T <= N * shardSize_], the first-step initialization with the moving
    average establishes the agreement between shards and replicas that
    saving and validating rely on: every replica holds the concatenation
    of the live shards, and the shards and shadows are sized by the shard
    table. *)
Theorem first_step_establishes_shards_cover (g g' : SyncGraphGroup)
  (batches : list Batch) :
  fresh g -> lazy_init g batches = Ok g' ->
  (forall graph, In graph (graphs_ g') -> size (vals graph) < 2 ^ 31) ->
  movingAvg_ g = true ->
  (forall graph, In graph (graphs_ g') ->
     size (vals graph) <= Z.of_nat (length (devices_ g)) * shardSize_ g') ->
  forall graph, In graph (graphs_ g') -> shards_cover g' graph.
Proof.
  intros Hfresh H Hsmall Hma Hcover graph Hin.
  destruct (lazy_init_shards g g' batches Hfresh H Hsmall)
    as (v & Hall & _ & Hs0 & _ & _ & Hsz & Hcat & _ & _ & Ha & _ & _ & _ & Hd & _).
  pose proof (Forall_all_vals_size _ _ Hall graph Hin) as Hv.
  specialize (Hcover graph Hin). rewrite Hv in Hcover.
  unfold shards_cover. rewrite Hv, Hd, Ha, Hma.
  split; [exact Hs0 |]. split; [exact Hsz |]. split; [reflexivity |].
  rewrite Hcat, Z.min_l by exact Hcover.
  unfold size. rewrite Nat2Z.id. symmetry. apply firstn_all.
Qed.

End FirstStepTheorems.

Section FirstThenStep.
Context {C : Collaborators}.

Lemma lazy_init_first (g g' : SyncGraphGroup) (batches : list Batch) :
  lazy_init g batches = Ok g' -> first_ g' = false.
Proof.
  unfold lazy_init. intros H.
  apply bind_Ok in H. destruct H as (graphs' & _ & H).
  apply bind_Ok in H. destruct H as (g1 & _ & H).
  apply bind_Ok in H. destruct H as (g2 & _ & H).
  now injection H as <-.
Qed.

(** X5.  The first step is the first-step initialization followed by an
    ordinary step on the initialized group, for the same batch: what is
    proved of the steps past the first holds of the first step from the
    state its initialization leaves, and a failing initialization is the
    failure of the step. *)
Theorem first_step_is_initialization_then_step (g : SyncGraphGroup)
  (batch : Batch) :
  first_ g = true ->
  execute_to_broadcast g batch =
    (g1 <- lazy_init g (batch_split batch (length (devices_ g))) ;;
     execute_to_broadcast g1 batch) /\
  update g batch =
    (g1 <- lazy_init g (batch_split batch (length (devices_ g))) ;;
     update g1 batch).
Proof.
  intros Hfirst.
  assert (E : execute_to_broadcast g batch =
              (g1 <- lazy_init g (batch_split batch (length (devices_ g))) ;;
               execute_to_broadcast g1 batch)).
  { unfold execute_to_broadcast at 1. rewrite Hfirst.
    destruct (lazy_init g (batch_split batch (length (devices_ g))))
      as [g1|e] eqn:E1; cbn [bind]; [| reflexivity].
    unfold execute_to_broadcast.
    rewrite (lazy_init_first _ _ _ E1).
    destruct (lazy_init_setup _ _ _ E1) as (_ & _ & ->). reflexivity. }
  split; [exact E |].
  unfold update, execute. rewrite E.
  destruct (lazy_init g (batch_split batch (length (devices_ g)))) as [g1|e];
    reflexivity.
Qed.

End FirstThenStep.

(** ** One reduction task *)

Lemma copyToSub_ok (t src : Tensor) (pos n : Z) :
  in_bounds (size t) pos n = true -> n = size src ->
  copyToSub t pos n src =
  Ok (firstn (Z.to_nat pos) t ++ src ++ skipn (Z.to_nat (pos + n)) t).
Proof.
  intros Hb Hn. unfold copyToSub. rewrite Hb.
  destruct (Z.eqb_spec n (size src)); [reflexivity | contradiction].
Qed.

Section ReduceTask.
Context {C : Collaborators}.

Lemma broadcast_ok (pos n : Z) (p : Tensor) : n = size p ->
  forall graphs,
  (forall graph, In graph graphs -> in_bounds (size (vals graph)) pos n = true) ->
  broadcast graphs pos n p =
  Ok (map (fun graph =>
             set_vals graph
               (firstn (Z.to_nat pos) (vals graph) ++ p ++
                skipn (Z.to_nat (pos + n)) (vals graph))) graphs).
Proof.
  intros Hn. induction graphs as [|g rest IH]; intros Hin; [reflexivity |].
  cbn [broadcast map]. rewrite copyToSub_ok by (auto; apply Hin; now left).
  cbn [bind]. rewrite IH by (intros x Hx; apply Hin; now right). reflexivity.
Qed.

Lemma contributing_same_grads (batches : list Batch) :
  forall graphs graphs' i,
  map grads graphs' = map grads graphs ->
  contributing graphs' i batches = contributing graphs i batches.
Proof.
  induction graphs as [|g rest IH]; intros [|g' rest'] i H; try discriminate; auto.
  injection H as Hg Hrest. cbn [contributing]. rewrite Hg, (IH rest' (S i) Hrest).
  reflexivity.
Qed.

Lemma reduce_task_ok (batches : list Batch) (idx : nat) (pos : Z)
  (g : SyncGraphGroup) (acc0 p tmp : Tensor) (o : Optimizer) :
  nth_error (grads_ g) idx = Some acc0 ->
  nth_error (params_ g) idx = Some p ->
  nth_error (tmpTensors_ g) idx = Some tmp ->
  nth_error (shardOpt_ g) idx = Some o ->
  size acc0 = size p -> size tmp = size p ->
  (length (graphs_ g) <= length batches)%nat ->
  (forall t, In t (contributing (graphs_ g) 0 batches) ->
     in_bounds (size t) pos (size p) = true) ->
  (forall graph, In graph (graphs_ g) ->
     in_bounds (size (vals graph)) pos (size p) = true) ->
  (movingAvg_ g = true ->
   exists avg s, nth_error (paramsAvg_ g) idx = Some avg /\ size avg = size p /\
                 scheduler_ g = Some s) ->
  let acc := slice_sum (contributing (graphs_ g) 0 batches) pos (size p) in
  let o' := fst (opt_update o p acc) in
  let p' := snd (opt_update o p acc) in
  exists params' grads' tmps' opts' avgs',
    reduce_task batches idx pos g =
    Ok (with_graphs
          (with_paramsAvg
             (with_shardOpt
                (with_tmpTensors (with_grads (with_params g params') grads')
                   tmps') opts') avgs')
          (map (fun graph =>
                  set_vals graph
                    (firstn (Z.to_nat pos) (vals graph) ++ p' ++
                     skipn (Z.to_nat (pos + size p)) (vals graph)))
             (graphs_ g))) /\
    upd (params_ g) idx p' = Ok params' /\
    upd (grads_ g) idx acc = Ok grads' /\
    upd (shardOpt_ g) idx o' = Ok opts' /\
    (length tmps' = length (tmpTensors_ g) /\
     (exists tmp', nth_error tmps' idx = Some tmp' /\ size tmp' = size p) /\
     forall j, j <> idx -> nth_error tmps' j = nth_error (tmpTensors_ g) j) /\
    (if movingAvg_ g then
       exists avg s, nth_error (paramsAvg_ g) idx = Some avg /\
                     scheduler_ g = Some s /\
                     upd (paramsAvg_ g) idx
                       (shard_avg (effectiveDecay (mvDecay_ g) (numberOfBatches s))
                          avg p') = Ok avgs'
     else avgs' = paramsAvg_ g).
Proof.
  intros Hacc0 Hp Htmp Ho Hsa Hst Hlen Hgr Hvb Hma acc o' p'.
  assert (Hsz' : size p' = size p).
  { unfold p', size. now rewrite opt_update_size. }
  unfold reduce_task.
  rewrite (at_Some _ _ _ Hacc0), (at_Some _ _ _ Hp). cbn [bind].
  destruct (accumulate_fold (graphs_ g) batches idx pos (size p) 0 (set0 acc0)
              (tmpTensors_ g) tmp) as (tmps' & Hac & Htl & Hti & Hto); auto.
  { lia. }
  { unfold set0, size in *. now rewrite repeat_length. }
  rewrite Hac. cbn [bind].
  rewrite fold_tensor_add_zero by assumption. fold acc.
  rewrite (at_Some _ _ _ Ho). cbn [bind].
  destruct (opt_update o p acc) as [o1 p1] eqn:Eo. cbn [fst snd] in o', p'.
  subst o' p'.
  destruct (upd_ok (params_ g) idx p1 _ Hp) as (params' & Hup & _).
  destruct (upd_ok (grads_ g) idx acc _ Hacc0) as (grads' & Hug & _).
  destruct (upd_ok (shardOpt_ g) idx o1 _ Ho) as (opts' & Huo & _).
  rewrite broadcast_ok; [| congruence |].
  2:{ intros graph Hin. apply Hvb. exact Hin. }
  destruct (movingAvg_ g) eqn:Ema.
  - destruct (Hma eq_refl) as (avg & s & Havg & Hsavg & Hs).
    rewrite (at_Some _ _ _ Havg). cbn [bind].
    unfold deref_scheduler. rewrite Hs. cbn [bind].
    unfold updateMovingAverage. rewrite Element_ok
      by (unfold size in *; lia).
    cbn [bind].
    destruct (upd_ok (paramsAvg_ g) idx
                (shard_avg (effectiveDecay (mvDecay_ g) (numberOfBatches s)) avg p1)
                _ Havg) as (avgs' & Hua & _).
    unfold shard_avg in Hua. rewrite Hua. cbn [bind].
    rewrite Hug, Hup, Huo. cbn [bind].
    exists params', grads', tmps', opts', avgs'.
    repeat split; auto. exists avg, s. repeat split; auto.
  - cbn [bind]. rewrite Hug, Hup, Huo. cbn [bind].
    exists params', grads', tmps', opts', (paramsAvg_ g).
    repeat split; auto.
Qed.
End ReduceTask.

(** ** The reduction phase *)

Lemma stage_0 {A} (orig final : list A) : stage orig final orig 0.
Proof. intros k. reflexivity. Qed.

Lemma stage_at {A} (orig final cur : list A) i :
  stage orig final cur i -> nth_error cur i = nth_error orig i.
Proof. intros H. rewrite (H i). now rewrite Nat.ltb_irrefl. Qed.

Lemma stage_S {A} (orig final cur cur' : list A) i x :
  stage orig final cur i -> upd cur i x = Ok cur' ->
  nth_error final i = Some x -> stage orig final cur' (S i).
Proof.
  intros H Hu Hx k. apply upd_inv in Hu. destruct Hu as (_ & Hi & Ho).
  destruct (Nat.eq_dec k i) as [->|Hne].
  - rewrite Hi. replace (i <? S i)%nat with true by (symmetry; apply Nat.ltb_lt; lia).
    now symmetry.
  - rewrite (Ho k Hne), (H k).
    destruct (Nat.ltb_spec k i), (Nat.ltb_spec k (S i)); auto; lia.
Qed.

Lemma shard_pos_S (params : list Tensor) k p :
  nth_error params k = Some p ->
  shard_pos params (S k) = shard_pos params k + size p.
Proof.
  unfold shard_pos. revert k. induction params as [|q params IH]; intros [|k] H;
    try discriminate.
  - injection H as ->. cbn. unfold size. rewrite app_nil_r. lia.
  - specialize (IH k H). cbn [firstn concat] in *. unfold size in *.
    rewrite !length_app. lia.
Qed.

Lemma shard_pos_nonneg (params : list Tensor) k : 0 <= shard_pos params k.
Proof. unfold shard_pos, size. lia. Qed.

Lemma shard_pos_le (params : list Tensor) k :
  shard_pos params k <= size (concat params).
Proof.
  unfold shard_pos, size. revert k.
  induction params as [|q params IH]; intros [|k]; cbn; try lia.
  specialize (IH k). rewrite !length_app. lia.
Qed.

Lemma shard_pos_same (params params' : list Tensor) k :
  map size params' = map size params -> shard_pos params' k = shard_pos params k.
Proof.
  intros H. unfold shard_pos. apply size_concat_same.
  rewrite <- !firstn_map. now rewrite H.
Qed.

Lemma nth_error_same_size (a b : list Tensor) k x :
  map size a = map size b -> nth_error a k = Some x ->
  exists y, nth_error b k = Some y /\ size x = size y.
Proof.
  intros H Hx.
  assert (E : nth_error (map size a) k = Some (size x)) by (now apply map_nth_error).
  rewrite H in E. rewrite nth_error_map in E.
  destruct (nth_error b k) as [y|]; [| discriminate].
  exists y. split; [reflexivity |]. cbn in E. congruence.
Qed.

Lemma concat_firstn_S {A} (l : list (list A)) k x :
  nth_error l k = Some x -> concat (firstn (S k) l) = concat (firstn k l) ++ x.
Proof.
  revert k. induction l as [|y l IH]; intros [|k] H; try discriminate.
  - injection H as ->. cbn. now rewrite app_nil_r.
  - specialize (IH k H). cbn [firstn concat] in *. rewrite IH.
    now rewrite app_assoc.
Qed.

Lemma stage_end_le {A} (orig final cur : list A) n :
  length final = length orig -> (length orig <= n)%nat ->
  stage orig final cur n -> cur = final.
Proof.
  intros Hl Hn H. apply nth_error_ext. intros k. rewrite (H k).
  destruct (Nat.ltb_spec k n); [reflexivity |].
  transitivity (@None A); [| symmetry]; apply nth_error_None; lia.
Qed.

Lemma grads_broadcast_upto shards i graphs :
  map grads (map (broadcast_upto shards i) graphs) = map grads graphs.
Proof. rewrite map_map. apply map_ext. intros []; reflexivity. Qed.

Lemma broadcast_upto_0 shards graphs :
  map (broadcast_upto shards 0) graphs = graphs.
Proof.
  rewrite <- (map_id graphs) at 2. apply map_ext. intros []; reflexivity.
Qed.

Lemma broadcast_upto_S shards i p' (graph : ExpressionGraph) n :
  nth_error shards i = Some p' -> n = size p' ->
  set_vals (broadcast_upto shards i graph)
    (firstn (Z.to_nat (size (concat (firstn i shards))))
       (vals (broadcast_upto shards i graph)) ++ p' ++
     skipn (Z.to_nat (size (concat (firstn i shards)) + n))
       (vals (broadcast_upto shards i graph))) =
  broadcast_upto shards (S i) graph.
Proof.
  intros Hp ->. unfold broadcast_upto. unfold Tensor in *.
  rewrite (concat_firstn_S _ _ _ Hp).
  set (c := concat (firstn i shards)). unfold set_vals. cbn [vals grads].
  unfold size. rewrite <- Nat2Z.inj_add, !Nat2Z.id.
  rewrite firstn_app, firstn_all, Nat.sub_diag, firstn_O, app_nil_r.
  rewrite skipn_app, skipn_all2 by lia. cbn [app].
  rewrite skipn_skipn. rewrite length_app.
  replace (length c + length p' - length c + length c)%nat
    with (length c + length p')%nat by lia.
  now rewrite app_assoc.
Qed.

Lemma size_broadcast_upto shards i (graph : ExpressionGraph) :
  size (concat (firstn i shards)) <= size (vals graph) ->
  size (vals (broadcast_upto shards i graph)) = size (vals graph).
Proof.
  unfold broadcast_upto, set_vals, size. cbn [vals]. unfold Tensor in *. intros H.
  rewrite length_app, length_skipn. lia.
Qed.

Lemma map_size_mapi (f : nat -> Tensor -> Tensor) :
  (forall k p, size (f k p) = size p) ->
  forall l from, map size (mapi f from l) = map size l.
Proof.
  intros Hf. induction l as [|x l IH]; intros from; [reflexivity |].
  cbn [mapi map]. now rewrite Hf, IH.
Qed.

Lemma map_size_pointwise (a b : list Tensor) :
  (forall k, option_map size (nth_error a k) = option_map size (nth_error b k)) ->
  map size a = map size b.
Proof.
  intros H. apply nth_error_ext. intros k. rewrite !nth_error_map. apply H.
Qed.

Section ReducePhase.
Context {C : Collaborators}.

Lemma size_shard_update contrib params opts k p :
  size (snd (shard_update contrib params opts k p)) = size p.
Proof.
  unfold shard_update. destruct (nth_error opts k); [| reflexivity].
  unfold size. now rewrite opt_update_size.
Qed.

Lemma reduced_params_sizes contrib g :
  map size (reduced_params contrib g) = map size (params_ g).
Proof. apply map_size_mapi. intros. apply size_shard_update. Qed.

Lemma reduce_phase_ok (g : SyncGraphGroup) (batches : list Batch) (T : Z) :
  fits g T ->
  (length (devices_ g) <= length batches)%nat ->
  (forall t, In t (contributing (graphs_ g) 0 batches) -> size t = T) ->
  (movingAvg_ g = true -> scheduler_ g <> None) ->
  let contrib := contributing (graphs_ g) 0 batches in
  exists g',
    reduce_phase g batches = Ok g' /\
    params_ g' = reduced_params contrib g /\
    grads_ g' = reduced_grads contrib g /\
    shardOpt_ g' = reduced_opts contrib g /\
    paramsAvg_ g' = reduced_avgs contrib g /\
    graphs_ g' =
      map (broadcast_upto (reduced_params contrib g) (length (devices_ g)))
        (graphs_ g) /\
    map size (tmpTensors_ g') = map size (params_ g) /\
    options_ g' = options_ g /\ scheduler_ g' = scheduler_ g /\
    devices_ g' = devices_ g /\ shardSize_ g' = shardSize_ g /\
    first_ g' = first_ g /\ movingAvg_ g' = movingAvg_ g /\
    mvDecay_ g' = mvDecay_ g /\ disk_ g' = disk_ g.
Proof.
  intros (Hlg & Hlp & Hlo & Hsg & Hst & Hsa & HT & Hle) Hlb Hct Hsch contrib.
  set (N := length (devices_ g)) in *.
  set (fp := reduced_params contrib g).
  assert (Hfp : map size fp = map size (params_ g))
    by apply reduced_params_sizes.
  unfold reduce_phase. fold N.
  destruct (for_total
    (fun i (s : Z * SyncGraphGroup) =>
       fst s = shard_pos (params_ g) i /\
       stage (params_ g) fp (params_ (snd s)) i /\
       stage (grads_ g) (reduced_grads contrib g) (grads_ (snd s)) i /\
       stage (shardOpt_ g) (reduced_opts contrib g) (shardOpt_ (snd s)) i /\
       (if movingAvg_ g
        then stage (paramsAvg_ g) (reduced_avgs contrib g) (paramsAvg_ (snd s)) i
        else paramsAvg_ (snd s) = paramsAvg_ g) /\
       graphs_ (snd s) = map (broadcast_upto fp i) (graphs_ g) /\
       (forall k, option_map size (nth_error (tmpTensors_ (snd s)) k) =
                  option_map size (nth_error (params_ g) k)) /\
       options_ (snd s) = options_ g /\ scheduler_ (snd s) = scheduler_ g /\
       devices_ (snd s) = devices_ g /\ shardSize_ (snd s) = shardSize_ g /\
       first_ (snd s) = first_ g /\ movingAvg_ (snd s) = movingAvg_ g /\
       mvDecay_ (snd s) = mvDecay_ g /\ disk_ (snd s) = disk_ g)
    (reduce_body batches) N 0%nat (0, g))
    as ([pos' g'] & Hfor & Hpos & Hp & Hg & Ho & Ha & Hgr & Htm & Hfr).
  - cbn [fst snd]. split; [reflexivity |].
    split; [apply stage_0 |]. split; [apply stage_0 |]. split; [apply stage_0 |].
    split; [destruct (movingAvg_ g); [apply stage_0 | reflexivity] |].
    split; [now rewrite broadcast_upto_0 |].
    split; [| repeat split].
    intros k. rewrite <- !nth_error_map. now rewrite Hst.
  - intros i [pos st] Hi (Hpos & Hp & Hg & Ho & Ha & Hgr & Htm & Hfr).
    cbn [fst snd] in *. subst pos.
    destruct Hfr as (Fo & Fs & Fd & Fz & Ff & Fm & Fv & Fk).
    (* the entries of shard [i] *)
    destruct (nth_error (params_ g) i) as [p|] eqn:Ep;
      [| apply nth_error_None in Ep; lia].
    destruct (nth_error (shardOpt_ g) i) as [o|] eqn:Eo;
      [| apply nth_error_None in Eo; lia].
    destruct (nth_error_same_size (params_ g) (grads_ g) i p (eq_sym Hsg) Ep)
      as (acc0 & Eg & Hsz_acc).
    assert (Etm : exists tmp, nth_error (tmpTensors_ st) i = Some tmp /\
                              size tmp = size p).
    { specialize (Htm i). rewrite Ep in Htm.
      destruct (nth_error (tmpTensors_ st) i) as [tmp|]; [| discriminate].
      exists tmp. split; [reflexivity |]. cbn in Htm. congruence. }
    destruct Etm as (tmp & Etm & Hsz_tmp).
    assert (Hcontrib : contributing (graphs_ st) 0 batches = contrib).
    { rewrite Hgr. apply contributing_same_grads. apply grads_broadcast_upto. }
    assert (Hpos1 : shard_pos (params_ g) i + size p <= T).
    { rewrite <- (shard_pos_S _ _ _ Ep).
      etransitivity; [apply shard_pos_le | exact Hle]. }
    assert (Hpos0 := shard_pos_nonneg (params_ g) i).
    assert (Hszp : 0 <= size p) by (unfold size; lia).
    assert (Hfpi : shard_pos fp i = shard_pos (params_ g) i)
      by (now apply shard_pos_same).
    destruct (reduce_task_ok batches i (shard_pos (params_ g) i) st acc0 p tmp o)
      as (params' & grads' & tmps' & opts' & avgs' & Hred & Hup & Hug & Huo &
          (Htl & (tmp' & Hti & Hts) & Hto) & Hav).
    + now rewrite (stage_at _ _ _ _ Hg).
    + now rewrite (stage_at _ _ _ _ Hp).
    + exact Etm.
    + now rewrite (stage_at _ _ _ _ Ho).
    + now symmetry.
    + exact Hsz_tmp.
    + rewrite Hgr, length_map. lia.
    + intros t Ht. rewrite Hcontrib in Ht. rewrite (Hct t Ht).
      apply in_bounds_true; lia.
    + intros graph Hin. rewrite Hgr in Hin. apply in_map_iff in Hin.
      destruct Hin as (g0 & <- & Hin0).
      rewrite size_broadcast_upto.
      * rewrite (HT g0 Hin0). apply in_bounds_true; lia.
      * change (shard_pos fp i <= size (vals g0)).
        rewrite Hfpi, (HT g0 Hin0). lia.
    + intros Hm. rewrite Fm in Hm. rewrite Hm in Ha.
      destruct (nth_error_same_size (params_ g) (paramsAvg_ g) i p
                  (eq_sym (Hsa Hm)) Ep) as (avg & Eavg & Hsz_avg).
      destruct (scheduler_ g) as [s|] eqn:Es; [| now elim (Hsch Hm)].
      exists avg, s. rewrite (stage_at _ _ _ _ Ha), Fs. auto.
    + rewrite Hcontrib in *.
      set (acc := slice_sum contrib (shard_pos (params_ g) i) (size p)) in *.
      assert (Hsu : shard_update contrib (params_ g) (shardOpt_ g) i p =
                    opt_update o p acc).
      { unfold shard_update. now rewrite Eo. }
      set (p' := snd (opt_update o p acc)) in *.
      assert (Hfpn : nth_error fp i = Some p').
      { unfold fp, reduced_params. rewrite nth_error_mapi, Ep. cbn.
        now rewrite Hsu. }
      assert (Hsp' : size p' = size p).
      { unfold p'. rewrite <- Hsu. apply size_shard_update. }
      unfold reduce_body. rewrite Hred. cbn [bind].
      cbn [params_ with_graphs with_paramsAvg with_shardOpt with_tmpTensors
             with_grads with_params].
      rewrite (at_Some _ _ _ (proj1 (proj2 (upd_inv _ _ _ _ Hup)))). cbn [bind].
      eexists. split; [reflexivity |]. cbn [fst snd].
      cbn [params_ grads_ shardOpt_ paramsAvg_ graphs_ tmpTensors_ options_
             scheduler_ devices_ shardSize_ first_ movingAvg_ mvDecay_ disk_
             with_graphs with_paramsAvg with_shardOpt with_tmpTensors
             with_grads with_params].
      split; [rewrite Hsp'; symmetry; now apply shard_pos_S |].
      split; [now apply (stage_S _ _ _ _ _ _ Hp Hup) |].
      split.
      { apply (stage_S _ _ _ _ _ _ Hg Hug).
        unfold reduced_grads. rewrite nth_error_mapi, Ep. reflexivity. }
      split.
      { apply (stage_S _ _ _ _ _ _ Ho Huo).
        unfold reduced_opts. rewrite nth_error_mapi, Ep. cbn. now rewrite Hsu. }
      split.
      { rewrite Fm in Hav. destruct (movingAvg_ g) eqn:Em.
        - destruct Hav as (avg & s & Eavg & Es & Hua).
          apply (stage_S _ _ _ _ _ _ Ha Hua).
          unfold reduced_avgs. rewrite Em. rewrite Fs in Es. rewrite Es.
          rewrite nth_error_mapi. rewrite (stage_at _ _ _ _ Ha) in Eavg.
          rewrite Eavg. cbn [option_map Nat.add]. fold fp. rewrite Hfpn.
          now rewrite Fv.
        - now rewrite Hav. }
      split.
      { rewrite Hgr, map_map. apply map_ext. intros graph.
        rewrite <- Hfpi. unfold shard_pos.
        apply broadcast_upto_S; [exact Hfpn | now symmetry]. }
      split; [| repeat split; assumption].
      intros k. destruct (Nat.eq_dec k i) as [->|Hne].
      * rewrite Hti, Ep. cbn. now rewrite Hts.
      * rewrite (Hto k Hne). apply Htm.
  - cbn [fst snd] in *. rewrite Hfor. cbn [bind snd].
    exists g'. split; [reflexivity |].
    destruct Hfr as (Fo & Fs & Fd & Fz & Ff & Fm & Fv & Fk).
    assert (Lfp : length fp = length (params_ g))
      by (unfold fp, reduced_params; apply mapi_length).
    change (0 + N)%nat with N in *.
    split; [apply (stage_end_le (params_ g) _ _ N); [exact Lfp | lia | exact Hp] |].
    split.
    { apply (stage_end_le (grads_ g) _ _ N); [| | exact Hg].
      - unfold reduced_grads. rewrite mapi_length.
        rewrite <- (length_map size (grads_ g)), Hsg. now rewrite length_map.
      - rewrite <- (length_map size (grads_ g)), Hsg, length_map. lia. }
    split.
    { apply (stage_end_le (shardOpt_ g) _ _ N); [| lia | exact Ho].
      unfold reduced_opts. rewrite mapi_length. lia. }
    split.
    { destruct (movingAvg_ g) eqn:Em.
      - assert (La : length (paramsAvg_ g) = length (params_ g)).
        { rewrite <- (length_map size (paramsAvg_ g)), (Hsa eq_refl).
          now rewrite length_map. }
        apply (stage_end_le (paramsAvg_ g) _ _ N); [| lia | exact Ha].
        unfold reduced_avgs. rewrite Em.
        destruct (scheduler_ g); [apply mapi_length | reflexivity].
      - rewrite Ha. unfold reduced_avgs. now rewrite Em. }
    split; [exact Hgr |].
    split; [now apply map_size_pointwise |].
    repeat split; assumption.
Qed.

End ReducePhase.

(** ** A step past the first *)

Section Step.
Context {C : Collaborators}.

Lemma contributing_computed (batches : list Batch) :
  forall graphs i,
  contributing (mapi (computed_graph batches) i graphs) i batches =
  step_grads graphs i batches.
Proof.
  induction graphs as [|graph rest IH]; intros i; [reflexivity |].
  cbn [mapi contributing step_grads]. rewrite IH. unfold computed_graph.
  destruct (nth_error batches i) as [b|]; [| reflexivity].
  destruct (0 <? batch_size b)%nat; reflexivity.
Qed.

Lemma computed_graph_vals (batches : list Batch) i graph :
  vals (computed_graph batches i graph) = vals graph.
Proof.
  unfold computed_graph. destruct (nth_error batches i) as [b|]; [| reflexivity].
  destruct (0 <? batch_size b)%nat; reflexivity.
Qed.

Lemma in_mapi {A B} (f : nat -> A -> B) y : forall l from,
  In y (mapi f from l) -> exists k x, nth_error l k = Some x /\ y = f (from + k)%nat x.
Proof.
  induction l as [|x l IH]; intros from H; [contradiction |].
  destruct H as [<- | H].
  - exists 0%nat, x. rewrite Nat.add_0_r. auto.
  - destruct (IH (S from) H) as (k & x' & H1 & H2).
    exists (S k), x'. rewrite Nat.add_succ_r. auto.
Qed.

(** A step that is not the first one, on a group whose shards fit: it
    completes, and its result is the reduction of the gradients of the
    step. *)
Lemma step_ok (g : SyncGraphGroup) (batch : Batch) (T : Z) :
  let batches := batch_split batch (length (devices_ g)) in
  let contrib := step_grads (graphs_ g) 0 batches in
  fits g T ->
  first_ g = false ->
  length batches = length (devices_ g) ->
  (forall t, In t contrib -> size t = T) ->
  (movingAvg_ g = true -> scheduler_ g <> None) ->
  exists g',
    execute_to_broadcast g batch =
      Ok (g', mapi (computed_cost batches) 0 (graphs_ g)) /\
    params_ g' = reduced_params contrib g /\
    grads_ g' = reduced_grads contrib g /\
    shardOpt_ g' = reduced_opts contrib g /\
    paramsAvg_ g' = reduced_avgs contrib g /\
    graphs_ g' =
      map (broadcast_upto (reduced_params contrib g) (length (devices_ g)))
        (mapi (computed_graph batches) 0 (graphs_ g)) /\
    map size (tmpTensors_ g') = map size (params_ g) /\
    options_ g' = options_ g /\ scheduler_ g' = scheduler_ g /\
    devices_ g' = devices_ g /\ shardSize_ g' = shardSize_ g /\
    first_ g' = first_ g /\ movingAvg_ g' = movingAvg_ g /\
    mvDecay_ g' = mvDecay_ g /\ disk_ g' = disk_ g.
Proof.
  intros batches contrib Hfits Hfirst Hlb Hsz Hsch.
  unfold execute_to_broadcast. fold batches. rewrite Hfirst. cbn [bind].
  pose proof Hfits as (Hlg & Hlp & Hlo & Hsg & Hst & Hsa & HT & Hle).
  rewrite (compute_phase_spec g batches Hlb Hlg). cbn [bind].
  set (g2 := with_graphs g (mapi (computed_graph batches) 0 (graphs_ g))).
  assert (Hc2 : contributing (graphs_ g2) 0 batches = contrib)
    by apply contributing_computed.
  destruct (reduce_phase_ok g2 batches T) as (g' & Hred & Hres).
  - unfold fits, g2. cbn. rewrite mapi_length.
    repeat split; auto.
    intros graph Hin. apply in_mapi in Hin. destruct Hin as (k & x & Hk & ->).
    rewrite computed_graph_vals. apply HT. eapply nth_error_In; eauto.
  - cbn. lia.
  - rewrite Hc2. exact Hsz.
  - exact Hsch.
  - rewrite Hc2 in Hres. rewrite Hred. cbn [bind].
    exists g'. split; [reflexivity |]. rewrite <- Hfirst. exact Hres.
Qed.

End Step.

Lemma size_slice_sum ts pos n : 0 <= n -> size (slice_sum ts pos n) = n.
Proof.
  intros Hn. unfold slice_sum, size. rewrite length_map, length_seq. lia.
Qed.

Lemma size_shard_avg decay avg p :
  size avg = size p -> size (shard_avg decay avg p) = size p.
Proof.
  unfold shard_avg, size. intros H. rewrite length_map, length_combine. lia.
Qed.

Lemma map_size_mapi2 (f : nat -> Tensor -> Tensor) (l l' : list Tensor) :
  map size l = map size l' ->
  (forall k x y, nth_error l k = Some x -> nth_error l' k = Some y ->
     size x = size y -> size (f k x) = size y) ->
  map size (mapi f 0 l) = map size l'.
Proof.
  intros Hs Hf. apply map_size_pointwise. intros k.
  rewrite nth_error_mapi. cbn [Nat.add].
  destruct (nth_error l k) as [x|] eqn:Ex.
  - destruct (nth_error_same_size _ _ _ _ Hs Ex) as (y & Ey & Hxy).
    rewrite Ey. cbn. f_equal. eapply Hf; eauto.
  - apply nth_error_None in Ex.
    assert (El : length l = length l').
    { rewrite <- (length_map size l), Hs. apply length_map. }
    destruct (nth_error l' k) eqn:Ey; [| reflexivity].
    assert (nth_error l' k <> None) by congruence.
    apply nth_error_Some in H. lia.
Qed.

Section StepFacts.
Context {C : Collaborators}.

Lemma reduced_grads_sizes contrib (g : SyncGraphGroup) :
  map size (reduced_grads contrib g) = map size (params_ g).
Proof.
  apply map_size_mapi. intros k p. unfold shard_grad.
  apply size_slice_sum. unfold size. lia.
Qed.

Lemma reduced_avgs_sizes contrib (g : SyncGraphGroup) :
  map size (paramsAvg_ g) = map size (params_ g) ->
  map size (reduced_avgs contrib g) = map size (params_ g).
Proof.
  intros Hs. unfold reduced_avgs.
  destruct (movingAvg_ g); [| exact Hs].
  destruct (scheduler_ g) as [s|]; [| exact Hs].
  apply map_size_mapi2; [exact Hs |].
  intros k avg p Ea Ep Hap.
  assert (E : nth_error (reduced_params contrib g) k =
              Some (snd (shard_update contrib (params_ g) (shardOpt_ g) k p))).
  { unfold reduced_params. rewrite nth_error_mapi, Ep. reflexivity. }
  rewrite E. rewrite size_shard_avg; rewrite size_shard_update; auto.
Qed.

Lemma firstn_length_all {A} (l : list A) n : length l = n -> firstn n l = l.
Proof. intros <-. apply firstn_all. Qed.

(** The state after a step fits the same model. *)
Lemma reduced_fits (g g' : SyncGraphGroup) (T : Z) (batches : list Batch)
  contrib :
  fits g T ->
  params_ g' = reduced_params contrib g ->
  grads_ g' = reduced_grads contrib g ->
  shardOpt_ g' = reduced_opts contrib g ->
  paramsAvg_ g' = reduced_avgs contrib g ->
  graphs_ g' =
    map (broadcast_upto (reduced_params contrib g) (length (devices_ g)))
      (mapi (computed_graph batches) 0 (graphs_ g)) ->
  map size (tmpTensors_ g') = map size (params_ g) ->
  devices_ g' = devices_ g -> movingAvg_ g' = movingAvg_ g ->
  fits g' T.
Proof.
  intros (Hlg & Hlp & Hlo & Hsg & Hst & Hsa & HT & Hle) Ep Eg Eo Ea Egr Et Ed Em.
  assert (Hps : map size (params_ g') = map size (params_ g))
    by (rewrite Ep; apply reduced_params_sizes).
  unfold fits. rewrite Ed, Em.
  split; [rewrite Egr, length_map, mapi_length; exact Hlg |].
  split; [rewrite Ep; unfold reduced_params; now rewrite mapi_length |].
  split; [rewrite Eo; unfold reduced_opts; now rewrite mapi_length |].
  split; [rewrite Eg, Hps; apply reduced_grads_sizes |].
  split; [now rewrite Et, Hps |].
  split; [intros Hm; rewrite Ea, Hps; apply reduced_avgs_sizes; auto |].
  split; [| now rewrite (size_concat_same _ _ Hps)].
  intros graph Hin. rewrite Egr in Hin. apply in_map_iff in Hin.
  destruct Hin as (g0 & <- & Hin). apply in_mapi in Hin.
  destruct Hin as (k & x & Hk & ->).
  assert (Hx : size (vals x) = T) by (apply HT; eapply nth_error_In; eauto).
  rewrite size_broadcast_upto; rewrite computed_graph_vals; [exact Hx |].
  rewrite Hx. etransitivity; [| exact Hle].
  rewrite <- (size_concat_same _ _ (reduced_params_sizes contrib g)).
  apply (shard_pos_le (reduced_params contrib g)).
Qed.

End StepFacts.

Section StepTheorems.
Context {C : Collaborators}.

(** X6.  A step that is not the first one completes on every group whose
    shards fit a model of [T] parameters, provided the batch splits into
    one sub-batch per device, every gradient buffer the step computes has
    [T] elements and, with the moving average, a scheduler is set.  The
    shards of the resulting group fit the same model, so the next step
    completes under the same conditions; there is one cost slot per
    device. *)
Theorem step_completes_and_shards_still_fit (g : SyncGraphGroup)
  (batch : Batch) (T : Z) :
  fits g T ->
  first_ g = false ->
  length (batch_split batch (length (devices_ g))) = length (devices_ g) ->
  (forall t,
     In t (step_grads (graphs_ g) 0 (batch_split batch (length (devices_ g)))) ->
     size t = T) ->
  (movingAvg_ g = true -> scheduler_ g <> None) ->
  exists g' costs,
    execute_to_broadcast g batch = Ok (g', costs) /\
    fits g' T /\ first_ g' = false /\ same_setup g g' /\
    length costs = length (devices_ g).
Proof.
  intros Hfits Hfirst Hlb Hsz Hsch.
  destruct (step_ok g batch T Hfits Hfirst Hlb Hsz Hsch)
    as (g' & Hex & Ep & Eg & Eo & Ea & Egr & Et & _ & Es & Ed & _ & Ef & Em & _).
  exists g'. eexists. split; [exact Hex |].
  split; [eapply reduced_fits; eauto |].
  split; [congruence |].
  split; [repeat split; assumption |].
  rewrite mapi_length. apply Hfits.
Qed.


(** X8.  After such a step every replica holds the concatenation of the
    updated shards, followed by what it held beyond the shards before the
    step: the parameters at offsets that belong to no shard are never
    trained.  The gradient buffer of a replica is the one its compute task
    left. *)
Theorem step_broadcasts_shards_to_replicas (g g' : SyncGraphGroup)
  (batch : Batch) (T : Z) (costs : list Qc) (i : nat)
  (graph : ExpressionGraph) :
  fits g T ->
  first_ g = false ->
  length (batch_split batch (length (devices_ g))) = length (devices_ g) ->
  (forall t,
     In t (step_grads (graphs_ g) 0 (batch_split batch (length (devices_ g)))) ->
     size t = T) ->
  (movingAvg_ g = true -> scheduler_ g <> None) ->
  execute_to_broadcast g batch = Ok (g', costs) ->
  nth_error (graphs_ g) i = Some graph ->
  exists graph',
    nth_error (graphs_ g') i = Some graph' /\
    vals graph' =
      concat (params_ g') ++ skipn (length (concat (params_ g'))) (vals graph) /\
    grads graph' =
      grads (computed_graph (batch_split batch (length (devices_ g))) i graph).
Proof.
  intros Hfits Hfirst Hlb Hsz Hsch Hex Hi.
  destruct (step_ok g batch T Hfits Hfirst Hlb Hsz Hsch)
    as (g1 & Hex1 & Ep & _ & _ & _ & Egr & _).
  rewrite Hex in Hex1. injection Hex1 as -> _.
  eexists. split.
  - rewrite Egr. rewrite nth_error_map, nth_error_mapi, Hi. reflexivity.
  - unfold broadcast_upto. cbn [vals grads set_vals Nat.add].
    rewrite computed_graph_vals.
    rewrite firstn_length_all, <- Ep; [auto |].
    unfold reduced_params. rewrite mapi_length. apply Hfits.
Qed.


(** X10.  Such a step keeps the agreement between shards and replicas that
    saving and validating rely on: if every replica holds the
    concatenation of the live shards, and the shards and shadows are sized
    by the shard table, the same is true after the step. *)
Theorem step_keeps_shards_cover (g g' : SyncGraphGroup)
  (batch : Batch) (T : Z) (costs : list Qc) :
  fits g T ->
  first_ g = false ->
  length (batch_split batch (length (devices_ g))) = length (devices_ g) ->
  (forall t,
     In t (step_grads (graphs_ g) 0 (batch_split batch (length (devices_ g)))) ->
     size t = T) ->
  (movingAvg_ g = true -> scheduler_ g <> None) ->
  execute_to_broadcast g batch = Ok (g', costs) ->
  (forall graph, In graph (graphs_ g) -> shards_cover g graph) ->
  forall graph', In graph' (graphs_ g') -> shards_cover g' graph'.
Proof.
  intros Hfits Hfirst Hlb Hsz Hsch Hex Hcov graph' Hin.
  destruct (step_ok g batch T Hfits Hfirst Hlb Hsz Hsch)
    as (g1 & Hex1 & Ep & _ & _ & Ea & Egr & _ & _ & _ & Ed & Ez & _).
  rewrite Hex in Hex1. injection Hex1 as <- _.
  set (contrib := step_grads (graphs_ g) 0
                    (batch_split batch (length (devices_ g)))) in *.
  assert (Hps : map size (params_ g') = map size (params_ g))
    by (rewrite Ep; apply reduced_params_sizes).
  rewrite Egr in Hin. apply in_map_iff in Hin.
  destruct Hin as (g0 & <- & Hin). apply in_mapi in Hin.
  destruct Hin as (k & x & Hk & ->).
  destruct (Hcov x (nth_error_In _ _ Hk)) as (Hs0 & Htab & Hav & Hv).
  assert (Hvals : vals (broadcast_upto (reduced_params contrib g)
                          (length (devices_ g))
                          (computed_graph
                             (batch_split batch (length (devices_ g)))
                             (0 + k) x)) = concat (params_ g')).
  { unfold broadcast_upto. cbn [vals set_vals].
    rewrite computed_graph_vals, firstn_length_all, <- Ep.
    - rewrite Hv.
      assert (L : length (concat (params_ g')) = length (concat (params_ g))).
      { pose proof (size_concat_same _ _ Hps) as H. unfold size in H. lia. }
      rewrite L, skipn_all. apply app_nil_r.
    - unfold reduced_params. rewrite mapi_length. apply Hfits. }
  unfold shards_cover. rewrite Hvals, Ez, Ed, Hps.
  split; [exact Hs0 |].
  split; [| split; [| reflexivity]].
  - rewrite (size_concat_same _ _ Hps), <- Hv. exact Htab.
  - rewrite Ea. apply reduced_avgs_sizes. exact Hav.
Qed.

End StepTheorems.

Section UpdateTotal.
Context {C : Collaborators}.

(** X11.  [update] on a group whose shards fit, past the first step,
    completes whenever the scheduler, if there is one, asks neither for
    saving nor for validating once it has the cost of the step: the
    scheduler is given the mean of the cost slots and the batch, and the
    shards of the resulting group fit the same model.  So a training loop
    that starts from such a group gets through every step that does not
    save or validate. *)
Theorem update_completes_between_callbacks (g : SyncGraphGroup)
  (batch : Batch) (T : Z) :
  let batches := batch_split batch (length (devices_ g)) in
  let cost := mean_cost (mapi (computed_cost batches) 0 (graphs_ g)) in
  fits g T ->
  first_ g = false ->
  length batches = length (devices_ g) ->
  (forall t, In t (step_grads (graphs_ g) 0 batches) -> size t = T) ->
  (movingAvg_ g = true -> scheduler_ g <> None) ->
  (forall s, scheduler_ g = Some s ->
     saving (sched_update s cost batch) = false /\
     validating (sched_update s cost batch) = false) ->
  exists g',
    update g batch = Ok g' /\
    fits g' T /\ first_ g' = false /\
    devices_ g' = devices_ g /\ movingAvg_ g' = movingAvg_ g /\
    scheduler_ g' =
      option_map (fun s => sched_update s cost batch) (scheduler_ g).
Proof.
  intros batches cost Hfits Hfirst Hlb Hsz Hsch Hcb.
  destruct (step_ok g batch T Hfits Hfirst Hlb Hsz Hsch)
    as (g3 & Hex & Ep & Eg & Eo & Ea & Egr & Et & _ & Es & Ed & _ & Ef & Em & _).
  assert (Hfits3 : fits g3 T) by (eapply reduced_fits; eauto).
  unfold update, execute. rewrite Hex. cbn [bind].
  fold batches. fold cost.
  unfold scheduler_phase. rewrite Es.
  destruct (scheduler_ g) as [s|] eqn:Esg.
  - destruct (Hcb s eq_refl) as (Hsav & Hval).
    cbn [deref_scheduler scheduler_ with_scheduler bind].
    rewrite Hsav. cbn [bind deref_scheduler scheduler_ with_scheduler].
    rewrite Hval.
    eexists. split; [reflexivity |].
    split; [exact Hfits3 |].
    cbn. repeat split; congruence.
  - exists g3. split; [reflexivity |].
    split; [exact Hfits3 |]. cbn. repeat split; congruence.
Qed.

End UpdateTotal.

(** ** The moving average as a convex combination *)






(** ** Saving: what it needs, and the names of the snapshots *)

Lemma for_reaches {St} (body : nat -> St -> result St) :
  forall n from s s',
  for_ n from body s = Ok s' ->
  forall i, (from <= i < from + n)%nat -> exists x y, body i x = Ok y.
Proof.
  induction n as [|n IH]; intros from s s' H i Hi; [lia |].
  cbn [for_] in H. apply bind_Ok in H. destruct H as (s1 & Hb & H).
  destruct (Nat.eq_dec i from) as [->|Hne]; [eauto |].
  apply (IH _ _ _ H). lia.
Qed.

Section SaveEdge.
Context {C : Collaborators}.

Lemma fetchParams_needs_shards (g : SyncGraphGroup) (buf : Tensor)
  (params : list Tensor) (r : Tensor) :
  fetchParams g buf params = Ok r ->
  (length (devices_ g) <= length params)%nat.
Proof.
  unfold fetchParams. intros H. apply bind_Ok in H. destruct H as (x & H & _).
  destruct (le_lt_dec (length (devices_ g)) (length params)) as [Hle|Hlt];
    [exact Hle |].
  destruct (for_reaches _ _ _ _ _ H (length params)) as ([pos t] & y & Hb);
    [lia |].
  unfold fetchParams_body in Hb. apply bind_Ok in Hb.
  destruct Hb as (p & Hp & _). apply at_inv in Hp.
  assert (nth_error params (length params) = None)
    by (apply nth_error_None; lia).
  congruence.
Qed.

Lemma fetchInto_frame (g g' : SyncGraphGroup) idx params :
  fetchInto g idx params = Ok g' ->
  g' = with_graphs g (graphs_ g') /\
  length (graphs_ g') = length (graphs_ g) /\
  (length (devices_ g) <= length params)%nat.
Proof.
  unfold fetchInto. intros H.
  apply bind_Ok in H. destruct H as (graph & Hg & H).
  apply bind_Ok in H. destruct H as (v & Hv & H).
  apply bind_Ok in H. destruct H as (graphs' & Hu & H).
  injection H as <-. cbn [graphs_ with_graphs].
  split; [reflexivity |]. split; [apply (upd_inv _ _ _ _ Hu) |].
  eapply fetchParams_needs_shards; eauto.
Qed.

(** X13.  With the moving average, [save] reads one shadow shard per
    device: called while there are fewer (before the first [update] there
    is none yet), it indexes [paramsAvg_] out of range, which is undefined
    behaviour in the source and an error here, whatever the graph and the
    kind of save. *)
Theorem save_with_moving_average_needs_shadows (g : SyncGraphGroup)
  (graph : GraphPtr) (final : bool) :
  movingAvg_ g = true ->
  (length (paramsAvg_ g) < length (devices_ g))%nat ->
  forall g', save_graph g graph final <> Ok g'.
Proof.
  intros Hma Hlt g' H. unfold save_graph in H. rewrite Hma in H.
  apply bind_Ok in H. destruct H as (g1 & H1 & _).
  apply fetchInto_frame in H1. lia.
Qed.

(** X14.  In non-overwrite mode a periodic (non-final) save of a model
    whose path has fewer than four characters does not complete: the
    replacement of the last four characters of the path is out of range.  *)
Theorem periodic_save_needs_four_characters (g : SyncGraphGroup)
  (graph : GraphPtr) :
  opt_overwrite (options_ g) = false ->
  (String.length (opt_model (options_ g)) < 4)%nat ->
  forall g', save_graph g graph false <> Ok g'.
Proof.
  intros How Hlen g' H. unfold save_graph in H.
  apply bind_Ok in H. destruct H as (g1 & H1 & H).
  apply bind_Ok in H. destruct H as (g2 & H2 & _).
  assert (Ho : options_ g1 = options_ g).
  { destruct (movingAvg_ g).
    - apply fetchInto_frame in H1. destruct H1 as (-> & _). reflexivity.
    - now injection H1 as <-. }
  unfold save_files in H2. rewrite Ho, How in H2.
  apply bind_Ok in H2. destruct H2 as (graph0 & _ & H2).
  apply bind_Ok in H2. destruct H2 as (d0 & H2 & _).
  cbn [negb] in H2. apply bind_Ok in H2. destruct H2 as (name & H2 & _).
  unfold replace_last4 in H2.
  destruct (Nat.leb_spec 4 (String.length (opt_model (options_ g))));
    [lia | discriminate].
Qed.

End SaveEdge.

Lemma substring_prefix (a b : string) :
  substring 0 (String.length a) (a ++ b) = a.
Proof.
  induction a as [|c a IH]; cbn.
  - destruct b; reflexivity.
  - now rewrite IH.
Qed.

Lemma length_append (a b : string) :
  String.length (a ++ b) = (String.length a + String.length b)%nat.
Proof. induction a as [|c a IH]; cbn; [reflexivity | now rewrite IH]. Qed.

Lemma append_inj_l (a b c : string) : (a ++ b = a ++ c)%string -> b = c.
Proof.
  induction a as [|x a IH]; cbn; intros H; [exact H |].
  injection H as H. auto.
Qed.

Lemma append_inj_r (c : string) : forall a b : string,
  (a ++ c = b ++ c)%string -> a = b.
Proof.
  induction a as [|x a IH]; intros [|y b] H; cbn in H.
  - reflexivity.
  - exfalso. apply (f_equal String.length) in H. cbn in H.
    rewrite length_append in H. lia.
  - exfalso. apply (f_equal String.length) in H. cbn in H.
    rewrite length_append in H. lia.
  - injection H as -> H. f_equal. auto.
Qed.

Lemma to_string_inj (n m : N) : to_string n = to_string m -> n = m.
Proof.
  unfold to_string. intros H.
  apply (f_equal NilEmpty.uint_of_string) in H. rewrite !NilEmpty.usu in H.
  injection H as H. now apply DecimalN.Unsigned.to_uint_inj.
Qed.

(** X15.  The numbered snapshot of a periodic save is named by the model
    path with its last four characters, whatever they are, replaced by
    [.iter<batches>.npz]; snapshots taken at different batch counts get
    different names, so none overwrites another. *)
Theorem snapshot_names_are_distinct (base ext : string) :
  String.length ext = 4%nat ->
  (forall t, replace_last4 (base ++ ext) t = Ok (base ++ t)%string) /\
  (forall n,
     snapshot_name (base ++ ext) n =
     (base ++ ".iter" ++ to_string n ++ ".npz")%string) /\
  (forall n m,
     snapshot_name (base ++ ext) n = snapshot_name (base ++ ext) m -> n = m).
Proof.
  intros Hext.
  assert (Hlen : (String.length (base ++ ext) - 4 = String.length base)%nat)
    by (rewrite length_append; lia).
  assert (Hname : forall n, snapshot_name (base ++ ext) n =
                            (base ++ ".iter" ++ to_string n ++ ".npz")%string).
  { intros n. unfold snapshot_name. now rewrite Hlen, substring_prefix. }
  split; [| split; [exact Hname |]].
  - intros t. unfold replace_last4.
    destruct (Nat.leb_spec 4 (String.length (base ++ ext))) as [_|Hlt].
    + now rewrite Hlen, substring_prefix.
    + rewrite length_append in Hlt. lia.
  - intros n m H. rewrite !Hname in H.
    apply append_inj_l in H. apply (append_inj_l ".iter") in H.
    apply append_inj_r in H. now apply to_string_inj.
Qed.

(** ** What [update] needs and what it leaves alone *)

Section Frames.
Context {C : Collaborators}.

Lemma lazy_init_frame (g g' : SyncGraphGroup) (batches : list Batch) :
  lazy_init g batches = Ok g' ->
  disk_ g' = disk_ g /\ length (graphs_ g') = length (graphs_ g).
Proof.
  unfold lazy_init. intros H.
  apply bind_Ok in H. destruct H as (graphs' & Hrep & H).
  apply bind_Ok in H. destruct H as (g1 & Hsh & H).
  apply bind_Ok in H. destruct H as (g2 & Hav & H).
  injection H as <-. cbn [disk_ graphs_ with_first].
  rewrite (init_avg_graphs _ _ Hav), (init_shards_graphs _ _ Hsh).
  cbn [graphs_ with_graphs].
  split; [| apply (init_replicas_spec _ _ _ Hrep)].
  transitivity (disk_ g1).
  - clear - Hav. unfold init_avg in Hav. inv_ok Hav; now injection Hav as <-.
  - clear - Hsh. unfold init_shards in Hsh. inv_ok Hsh; now injection Hsh as <-.
Qed.

Lemma compute_loop_length (batches : list Batch) :
  forall n from gs cs r,
  for_ n from (compute_task batches) (gs, cs) = Ok r ->
  length (fst r) = length gs /\ (n = 0 \/ from + n <= length gs)%nat.
Proof.
  induction n as [|n IH]; intros from gs cs r H.
  - injection H as <-. auto.
  - cbn [for_] in H. apply bind_Ok in H. destruct H as ([gs1 cs1] & Hb & H).
    destruct (IH _ _ _ _ H) as (Hl & Hn).
    unfold compute_task in Hb.
    apply bind_Ok in Hb. destruct Hb as (graph & Hg & Hb).
    apply bind_Ok in Hb. destruct Hb as (b & _ & Hb).
    apply at_inv in Hg.
    assert (Hfrom : (from < length gs)%nat)
      by (apply nth_error_Some; congruence).
    assert (Hl1 : length gs1 = length gs).
    { destruct (0 <? batch_size b)%nat.
      - destruct (build_forward_backward from graph b) as [cost grad].
        apply bind_Ok in Hb. destruct Hb as (cs' & _ & Hb).
        apply bind_Ok in Hb. destruct Hb as (gs' & Hu & Hb).
        injection Hb as <- _. apply (upd_inv _ _ _ _ Hu).
      - now injection Hb as <- _. }
    split; [congruence |]. right. lia.
Qed.

Lemma compute_phase_frame (g g' : SyncGraphGroup) (batches : list Batch) costs :
  compute_phase g batches = Ok (g', costs) ->
  disk_ g' = disk_ g /\ length (graphs_ g') = length (graphs_ g) /\
  (length batches <= length (graphs_ g))%nat.
Proof.
  unfold compute_phase. intros H.
  apply bind_Ok in H. destruct H as (r & Hfor & H). injection H as <- _.
  destruct (compute_loop_length _ _ _ _ _ _ Hfor) as (Hl & Hn).
  cbn [disk_ graphs_ with_graphs]. split; [reflexivity |].
  split; [exact Hl | lia].
Qed.

Lemma accumulate_needs_batches (batches : list Batch) idx pos n :
  forall graphs i s r,
  accumulate graphs i batches idx pos n s = Ok r ->
  graphs <> [] -> (length graphs + i <= length batches)%nat.
Proof.
  induction graphs as [|graph rest IH]; intros i s r H Hne; [congruence |].
  cbn [accumulate] in H.
  apply bind_Ok in H. destruct H as (b & Hb & H).
  apply bind_Ok in H. destruct H as (s1 & _ & H).
  apply at_inv in Hb.
  assert (Hi : (i < length batches)%nat) by (apply nth_error_Some; congruence).
  destruct rest as [|graph' rest]; [cbn; lia |].
  apply IH in H; [| discriminate]. cbn [length] in *. lia.
Qed.

Lemma reduce_task_frame (batches : list Batch) idx pos (g g' : SyncGraphGroup) :
  reduce_task batches idx pos g = Ok g' ->
  disk_ g' = disk_ g /\ scheduler_ g' = scheduler_ g /\
  devices_ g' = devices_ g /\
  (length (graphs_ g) <= length batches)%nat.
Proof.
  unfold reduce_task. intros H.
  apply bind_Ok in H. destruct H as (acc0 & _ & H).
  apply bind_Ok in H. destruct H as (p & _ & H).
  apply bind_Ok in H. destruct H as ([acc tmps] & Hacc & H).
  apply bind_Ok in H. destruct H as (o & _ & H).
  destruct (opt_update o p acc) as [o' p'].
  apply bind_Ok in H. destruct H as (avgs & _ & H).
  apply bind_Ok in H. destruct H as (graphs' & _ & H).
  apply bind_Ok in H. destruct H as (grads' & _ & H).
  apply bind_Ok in H. destruct H as (params' & _ & H).
  apply bind_Ok in H. destruct H as (opts' & _ & H).
  injection H as <-. cbn. repeat split.
  destruct (graphs_ g) as [|graph rest] eqn:Eg; [cbn; lia |].
  apply accumulate_needs_batches in Hacc; [lia | discriminate].
Qed.

Lemma reduce_phase_frame (g g' : SyncGraphGroup) (batches : list Batch) :
  reduce_phase g batches = Ok g' ->
  disk_ g' = disk_ g /\ scheduler_ g' = scheduler_ g /\
  (devices_ g = [] \/ (length (graphs_ g) <= length batches)%nat).
Proof.
  unfold reduce_phase. intros H.
  apply bind_Ok in H. destruct H as (r & Hfor & H). injection H as <-.
  split; [| split].
  - apply (for_partial
             (fun _ (s : Z * SyncGraphGroup) => disk_ (snd s) = disk_ g)
             _ _ _ _ _ Hfor); [reflexivity |].
    intros i [pos st] [pos' st'] _ Hs Hb. cbn [snd] in *.
    unfold reduce_body in Hb. apply bind_Ok in Hb. destruct Hb as (g1 & Ht & Hb).
    apply bind_Ok in Hb. destruct Hb as (p & _ & Hb). injection Hb as _ <-.
    apply reduce_task_frame in Ht. destruct Ht as (-> & _). exact Hs.
  - apply (for_partial
             (fun _ (s : Z * SyncGraphGroup) => scheduler_ (snd s) = scheduler_ g)
             _ _ _ _ _ Hfor); [reflexivity |].
    intros i [pos st] [pos' st'] _ Hs Hb. cbn [snd] in *.
    unfold reduce_body in Hb. apply bind_Ok in Hb. destruct Hb as (g1 & Ht & Hb).
    apply bind_Ok in Hb. destruct Hb as (p & _ & Hb). injection Hb as _ <-.
    apply reduce_task_frame in Ht. destruct Ht as (_ & -> & _). exact Hs.
  - destruct (devices_ g) as [|d ds]; [now left | right].
    cbn [length for_] in Hfor.
    apply bind_Ok in Hfor. destruct Hfor as (s1 & Hb & _).
    unfold reduce_body in Hb. apply bind_Ok in Hb. destruct Hb as (g1 & Ht & _).
    now apply reduce_task_frame in Ht.
Qed.

Lemma validation_frame (g g' : SyncGraphGroup) :
  validation g = Ok g' -> disk_ g' = disk_ g.
Proof.
  unfold validation. intros H.
  apply bind_Ok in H. destruct H as (g1 & H1 & H).
  apply bind_Ok in H. destruct H as (s & _ & H).
  apply bind_Ok in H. destruct H as (graph0 & _ & H).
  destruct (validate s graph0) as [s' graph0'].
  apply bind_Ok in H. destruct H as (graphs' & _ & H).
  assert (D1 : disk_ g1 = disk_ g).
  { destruct (movingAvg_ g).
    - apply fetchInto_frame in H1. destruct H1 as (-> & _). reflexivity.
    - now injection H1 as <-. }
  cbn [movingAvg_ with_graphs with_scheduler] in H.
  destruct (movingAvg_ g1).
  - apply fetchInto_frame in H. destruct H as (-> & _). exact D1.
  - injection H as <-. exact D1.
Qed.

(** The state and the costs that [update] hands to the scheduler
    callbacks. *)
Lemma update_phases (g g' : SyncGraphGroup) (batch : Batch) :
  update g batch = Ok g' ->
  exists g1 g2 g3 costs,
    (if first_ g then lazy_init g (batch_split batch (length (devices_ g)))
     else Ok g) = Ok g1 /\
    compute_phase g1 (batch_split batch (length (devices_ g))) = Ok (g2, costs) /\
    reduce_phase g2 (batch_split batch (length (devices_ g))) = Ok g3 /\
    scheduler_phase g3 (mean_cost costs) batch = Ok g'.
Proof.
  unfold update, execute. intros H.
  apply bind_Ok in H. destruct H as ([g3 costs] & E & H).
  unfold execute_to_broadcast in E.
  apply bind_Ok in E. destruct E as (g1 & E1 & E).
  apply bind_Ok in E. destruct E as ([g2 costs2] & E2 & E).
  apply bind_Ok in E. destruct E as (g3' & E3 & E).
  injection E as -> ->. exists g1, g2, g3, costs. auto.
Qed.

(** X16.  [update] writes no file unless the scheduler, once it has been
    given the cost of the step, asks for saving: without a scheduler, or
    with one that does not ask, the files after the step are the files
    before it. *)
Theorem update_writes_files_only_when_saving (g g' : SyncGraphGroup)
  (batch : Batch) :
  update g batch = Ok g' ->
  (forall s cost, scheduler_ g = Some s ->
     saving (sched_update s cost batch) = false) ->
  disk_ g' = disk_ g.
Proof.
  intros H Hsav.
  destruct (update_phases g g' batch H) as (g1 & g2 & g3 & costs & E1 & E2 & E3 & E4).
  assert (S1 : scheduler_ g1 = scheduler_ g /\ disk_ g1 = disk_ g).
  { destruct (first_ g).
    - split; [apply (lazy_init_setup _ _ _ E1) | apply (lazy_init_frame _ _ _ E1)].
    - injection E1 as <-. auto. }
  destruct S1 as (S1 & D1).
  pose proof (proj1 (compute_phase_setup _ _ _ _ E2)) as S2.
  pose proof (proj1 (compute_phase_frame _ _ _ _ E2)) as D2.
  destruct (reduce_phase_frame _ _ _ E3) as (D3 & S3 & _).
  assert (D4 : disk_ g' = disk_ g3).
  { unfold scheduler_phase in E4.
    destruct (scheduler_ g3) as [s|] eqn:Es; [| now injection E4 as <-].
    cbn [deref_scheduler scheduler_ with_scheduler bind] in E4.
    rewrite (Hsav s (mean_cost costs)) in E4 by congruence.
    cbn [bind deref_scheduler scheduler_ with_scheduler] in E4.
    destruct (validating _).
    - apply validation_frame in E4. exact E4.
    - now injection E4 as <-. }
  congruence.
Qed.

(** X17.  [update] gets through only if the batch splits into exactly one
    sub-batch per device: with more sub-batches the compute loop indexes
    [graphs_] out of range, with fewer the reduction indexes [batches] out
    of range (undefined behaviour in the source, errors here). *)
Theorem update_needs_one_sub_batch_per_device (g g' : SyncGraphGroup)
  (batch : Batch) :
  update g batch = Ok g' ->
  length (graphs_ g) = length (devices_ g) ->
  length (batch_split batch (length (devices_ g))) = length (devices_ g).
Proof.
  intros H Hlen.
  destruct (update_phases g g' batch H) as (g1 & g2 & g3 & costs & E1 & E2 & E3 & _).
  set (batches := batch_split batch (length (devices_ g))) in *.
  assert (L1 : length (graphs_ g1) = length (graphs_ g) /\ devices_ g1 = devices_ g).
  { destruct (first_ g).
    - split; [apply (lazy_init_frame _ _ _ E1) | apply (lazy_init_setup _ _ _ E1)].
    - injection E1 as <-. auto. }
  destruct L1 as (L1 & V1).
  destruct (compute_phase_frame _ _ _ _ E2) as (_ & L2 & Hle).
  pose proof (proj2 (proj2 (compute_phase_setup _ _ _ _ E2))) as V2.
  destruct (reduce_phase_frame _ _ _ E3) as (_ & _ & [Hnil | Hge]).
  - rewrite V2, V1 in Hnil. rewrite Hnil in *. cbn [length] in *. lia.
  - lia.
Qed.

End Frames.

(** * Concrete runs *)






(** C7 on the trained group: [validate] sees the shadows [[4; 5; 6]], and
    replica 0 holds [[1; 2; 3]] again afterwards. *)
Lemma validation_restores_live_parameters_witness :
  exists g' s' graph0',
    validation (Toy.trained true false (Some (Toy.scheduler false true))) =
      Ok g' /\
    scheduler_ g' = Some s' /\
    map (map this) (Toy.validated s') = [[4 # 1; 5 # 1; 6 # 1]] /\
    nth_error (graphs_ g') 0 = Some graph0' /\
    map this (vals graph0') = [1 # 1; 2 # 1; 3 # 1].
Proof.
  pose proof (@validation_restores_live_parameters (Toy.collaborators 3)
    (Toy.trained true false (Some (Toy.scheduler false true)))
    (Toy.scheduler false true)
    (mkGraph [Toy.qc 1; Toy.qc 2; Toy.qc 3] [])
    [mkGraph [Toy.qc 1; Toy.qc 2; Toy.qc 3] []]
    eq_refl eq_refl eq_refl) as H.
  assert (Hc : @shards_cover (Toy.collaborators 3)
                 (Toy.trained true false (Some (Toy.scheduler false true)))
                 (mkGraph [Toy.qc 1; Toy.qc 2; Toy.qc 3] [])).
  { split; [cbn; lia | split; [reflexivity | split; reflexivity]]. }
  specialize (H Hc). cbv zeta in H. destruct H as [H _].
  eexists. eexists. eexists.
  split; [exact H |].
  split; [reflexivity |].
  split; [reflexivity |].
  split; reflexivity.
Defined.



(** C9 on a constructed group: no file on the disk, reload enabled. *)
Lemma load_only_with_reload_and_checkpoint_witness :
  load (Toy.group 5 [0; 1]%nat false false) =
  Ok (Toy.group 5 [0; 1]%nat false false).
Proof.
  apply (proj1 (@load_only_with_reload_and_checkpoint (Toy.collaborators 5)
                  (Toy.group 5 [0; 1]%nat false false))).
  right. reflexivity.
Defined.

(** C10.  With the moving average enabled and no scheduler set, the first
    [update] of a group of two devices dereferences the null scheduler in
    its first reduction task; with the moving average disabled the same
    step completes. *)
Theorem update_without_scheduler_dereferences_null :
  update (Toy.group 5 [0; 1]%nat true false) [1; 2; 3]%nat = Err NullScheduler /\
  exists g',
    update (Toy.group 5 [0; 1]%nat false false) [1; 2; 3]%nat = Ok g'.
Proof.
  split.
  - assert (Herr : match update (Toy.group 5 [0; 1]%nat true false)
                           [1; 2; 3]%nat with
                   | Err NullScheduler => true
                   | _ => false
                   end = true) by (vm_compute; reflexivity).
    revert Herr.
    destruct (update _ _) as [g'|[]]; try discriminate. reflexivity.
  - assert (Hok : match update (Toy.group 5 [0; 1]%nat false false)
                          [1; 2; 3]%nat with
                  | Ok _ => true
                  | Err _ => false
                  end = true) by (vm_compute; reflexivity).
    revert Hok.
    destruct (update _ _) as [g'|e]; [| discriminate].
    intros _. now exists g'.
Qed.

(** X1 for five parameters on three devices, with shards of two. *)
Lemma shard_table_ranges_witness :
  shardRanges [0; 1; 2]%nat 2 0 5 = [(0, 2); (2, 2); (4, 1)] /\
  partitions (shardRanges [0; 1; 2]%nat 2 0 5) 5.
Proof.
  split; [reflexivity |].
  assert (H0 : 0 <= 2) by lia. assert (H1 : 0 <= 5) by lia.
  destruct (shard_table_ranges [0; 1; 2]%nat 2 5 H0 H1)
    as (_ & _ & _ & _ & _ & _ & H).
  apply H. cbn. lia.
Defined.

(** A freshly constructed group. *)
Lemma group_fresh (T : nat) (devices : list nat) (movingAvg overwrite : bool) :
  @fresh (Toy.collaborators T) (Toy.group T devices movingAvg overwrite).
Proof.
  unfold fresh. cbn. rewrite !length_map. repeat split.
Qed.

(** What is observed of the first-step initialization of a group of two
    devices on a model of five parameters. *)
Lemma group_lazy_init :
  match @lazy_init (Toy.collaborators 5) (Toy.group 5 [0; 1]%nat true false)
          (Toy.batches 5 [[1; 2]; [3]]%nat) with
  | Ok g' =>
      forallb (fun graph =>
                 (size (vals graph) <? 2 ^ 31) &&
                 (size (vals graph) <=? 2 * shardSize_ g')) (graphs_ g')
  | Err _ => false
  end = true.
Proof. vm_compute. reflexivity. Qed.

(** X3 at the first step of a group of two devices on a model of five
    parameters. *)
Lemma first_step_cuts_shards_from_replica_0_witness :
  exists g' v,
    lazy_init (Toy.group 5 [0; 1]%nat true false)
      (Toy.batches 5 [[1; 2]; [3]]%nat) = Ok g' /\
    all_vals v (graphs_ g') /\
    concat (params_ g') =
      firstn (Z.to_nat (Z.min (size v) (2 * shardSize_ g'))) v /\
    paramsAvg_ g' = params_ g' /\
    fits g' (size v).
Proof.
  pose proof group_lazy_init as Hobs. revert Hobs.
  destruct (lazy_init (Toy.group 5 [0; 1]%nat true false)
              (Toy.batches 5 [[1; 2]; [3]]%nat)) as [g'|e] eqn:E;
    intros Hobs; [| discriminate Hobs].
  assert (Hsmall : forall graph, In graph (graphs_ g') ->
                                 size (vals graph) < 2 ^ 31).
  { intros graph Hin.
    apply (proj1 (forallb_forall _ _) Hobs) in Hin.
    apply andb_prop in Hin. apply Z.ltb_lt. apply Hin. }
  destruct (@first_step_cuts_shards_from_replica_0 (Toy.collaborators 5)
              (Toy.group 5 [0; 1]%nat true false) g'
              (Toy.batches 5 [[1; 2]; [3]]%nat)
              (group_fresh _ _ _ _) E Hsmall)
    as (v & Hall & _ & _ & Hcat & Ha & Hfits & _).
  exists g', v.
  split; [reflexivity |]. split; [exact Hall |]. split; [exact Hcat |].
  split; [exact Ha | exact Hfits].
Defined.

(** X4 at the same first step: a shard size of 3 covers the five
    parameters. *)
Lemma first_step_establishes_shards_cover_witness :
  exists g',
    lazy_init (Toy.group 5 [0; 1]%nat true false)
      (Toy.batches 5 [[1; 2]; [3]]%nat) = Ok g' /\
    forall graph, In graph (graphs_ g') -> shards_cover g' graph.
Proof.
  pose proof group_lazy_init as Hobs. revert Hobs.
  destruct (lazy_init (Toy.group 5 [0; 1]%nat true false)
              (Toy.batches 5 [[1; 2]; [3]]%nat)) as [g'|e] eqn:E;
    intros Hobs; [| discriminate Hobs].
  exists g'. split; [reflexivity |].
  apply (@first_step_establishes_shards_cover (Toy.collaborators 5)
           (Toy.group 5 [0; 1]%nat true false) g'
           (Toy.batches 5 [[1; 2]; [3]]%nat) (group_fresh _ _ _ _) E).
  - intros graph Hin.
    apply (proj1 (forallb_forall _ _) Hobs) in Hin.
    apply andb_prop in Hin. apply Z.ltb_lt. apply Hin.
  - reflexivity.
  - intros graph Hin.
    apply (proj1 (forallb_forall _ _) Hobs) in Hin.
    apply andb_prop in Hin. apply Z.leb_le. apply Hin.
Defined.

(** X5 at the first step of a group of two devices. *)
Lemma first_step_is_initialization_then_step_witness :
  execute_to_broadcast (Toy.group 5 [0; 1]%nat true false) [1; 2; 3]%nat =
  (g1 <- lazy_init (Toy.group 5 [0; 1]%nat true false)
           (batch_split ([1; 2; 3]%nat : @Batch (Toy.collaborators 5))
              (length (devices_ (Toy.group 5 [0; 1]%nat true false)))) ;;
   execute_to_broadcast g1 [1; 2; 3]%nat).
Proof.
  exact (proj1 (@first_step_is_initialization_then_step (Toy.collaborators 5)
                  (Toy.group 5 [0; 1]%nat true false) [1; 2; 3]%nat eq_refl)).
Defined.

(** The trained group of [Toy] fits its model of three parameters, and the
    gradient buffers of a step on the batch [[1; 2; 3]] have three
    elements. *)
Lemma trained_fits (movingAvg overwrite : bool) (sched : option Toy.Sched) :
  @fits (Toy.collaborators 3) (Toy.trained movingAvg overwrite sched) 3.
Proof.
  unfold fits.
  split; [reflexivity |]. split; [reflexivity |]. split; [reflexivity |].
  split; [reflexivity |]. split; [reflexivity |].
  split; [intros _; reflexivity |].
  split.
  - intros graph [<- | [<- | []]]; reflexivity.
  - apply Z.leb_le. reflexivity.
Qed.

Lemma trained_grads (movingAvg overwrite : bool) (sched : option Toy.Sched) :
  forall t,
    In t (@step_grads (Toy.collaborators 3)
            (graphs_ (Toy.trained movingAvg overwrite sched)) 0
            (batch_split ([1; 2; 3]%nat : @Batch (Toy.collaborators 3))
               (length (devices_ (Toy.trained movingAvg overwrite sched))))) ->
    size t = 3.
Proof.
  intros t [<- | [<- | []]]; reflexivity.
Qed.

Lemma trained_scheduler (movingAvg overwrite : bool) (s : Toy.Sched) :
  movingAvg_ (Toy.trained movingAvg overwrite (Some s)) = true ->
  scheduler_ (Toy.trained movingAvg overwrite (Some s)) <> None.
Proof. intros _. discriminate. Qed.

Lemma trained_step (movingAvg : bool) :
  exists g',
    execute_to_broadcast
      (Toy.trained movingAvg false (Some (Toy.scheduler false false)))
      [1; 2; 3]%nat =
    Ok (g', mapi (computed_cost
                    (batch_split ([1; 2; 3]%nat : @Batch (Toy.collaborators 3)) 2))
              0 (graphs_ (Toy.trained movingAvg false
                            (Some (Toy.scheduler false false))))).
Proof.
  destruct (@step_ok (Toy.collaborators 3)
              (Toy.trained movingAvg false (Some (Toy.scheduler false false)))
              [1; 2; 3]%nat 3
              (trained_fits _ _ _) eq_refl eq_refl (trained_grads _ _ _)
              (trained_scheduler _ _ _)) as (g' & H & _).
  exists g'. exact H.
Qed.

(** X6 on the trained group, with the moving average. *)
Lemma step_completes_and_shards_still_fit_witness :
  exists g' costs,
    execute_to_broadcast
      (Toy.trained true false (Some (Toy.scheduler false false)))
      [1; 2; 3]%nat = Ok (g', costs) /\
    fits g' 3 /\ length costs = 2%nat.
Proof.
  destruct (@step_completes_and_shards_still_fit (Toy.collaborators 3)
              (Toy.trained true false (Some (Toy.scheduler false false)))
              [1; 2; 3]%nat 3
              (trained_fits _ _ _) eq_refl eq_refl (trained_grads _ _ _)
              (trained_scheduler _ _ _))
    as (g' & costs & H1 & H2 & _ & _ & H3).
  exists g', costs. split; [exact H1 | split; [exact H2 | exact H3]].
Defined.


(** X8 on the trained group: the second replica after the step. *)
Lemma step_broadcasts_shards_to_replicas_witness :
  exists g' costs graph',
    execute_to_broadcast
      (Toy.trained false false (Some (Toy.scheduler false false)))
      [1; 2; 3]%nat = Ok (g', costs) /\
    nth_error (graphs_ g') 1 = Some graph' /\
    vals graph' =
      concat (params_ g') ++
      skipn (length (concat (params_ g'))) [Toy.qc 1; Toy.qc 2; Toy.qc 3].
Proof.
  destruct (trained_step false) as (g' & Hex).
  destruct (@step_broadcasts_shards_to_replicas (Toy.collaborators 3)
              (Toy.trained false false (Some (Toy.scheduler false false)))
              g' [1; 2; 3]%nat 3 _ 1%nat
              (mkGraph [Toy.qc 1; Toy.qc 2; Toy.qc 3] [])
              (trained_fits _ _ _) eq_refl eq_refl (trained_grads _ _ _)
              (trained_scheduler _ _ _) Hex eq_refl)
    as (graph' & Hn & Hv & _).
  exists g'. eexists. exists graph'.
  split; [exact Hex | split; [exact Hn | exact Hv]].
Defined.


(** X10 on the trained group, with the moving average. *)
Lemma step_keeps_shards_cover_witness :
  exists g' costs,
    execute_to_broadcast
      (Toy.trained true false (Some (Toy.scheduler false false)))
      [1; 2; 3]%nat = Ok (g', costs) /\
    forall graph', In graph' (graphs_ g') -> shards_cover g' graph'.
Proof.
  destruct (trained_step true) as (g' & Hex).
  exists g'. eexists. split; [exact Hex |].
  apply (@step_keeps_shards_cover (Toy.collaborators 3)
           (Toy.trained true false (Some (Toy.scheduler false false)))
           g' [1; 2; 3]%nat 3 _
           (trained_fits _ _ _) eq_refl eq_refl (trained_grads _ _ _)
           (trained_scheduler _ _ _) Hex).
  intros graph [<- | [<- | []]];
    (split; [apply Z.leb_le; reflexivity
            | split; [reflexivity | split; reflexivity]]).
Defined.

(** X11 on the trained group, whose scheduler asks for nothing. *)
Lemma update_completes_between_callbacks_witness :
  exists g',
    update (Toy.trained true false (Some (Toy.scheduler false false)))
      [1; 2; 3]%nat = Ok g' /\
    fits g' 3 /\
    option_map (fun s => map this (Toy.costs s)) (scheduler_ g') =
    Some [3 # 1].
Proof.
  assert (Hcb : forall (s : @Scheduler (Toy.collaborators 3)),
            scheduler_ (Toy.trained true false (Some (Toy.scheduler false false)))
              = Some s ->
            forall cost,
            saving (sched_update s cost ([1; 2; 3]%nat : @Batch (Toy.collaborators 3)))
              = false /\
            validating
              (sched_update s cost ([1; 2; 3]%nat : @Batch (Toy.collaborators 3)))
              = false).
  { intros s Hs cost. injection Hs as <-. split; reflexivity. }
  destruct (@update_completes_between_callbacks (Toy.collaborators 3)
              (Toy.trained true false (Some (Toy.scheduler false false)))
              [1; 2; 3]%nat 3
              (trained_fits _ _ _) eq_refl eq_refl (trained_grads _ _ _)
              (trained_scheduler _ _ _) (fun s Hs => Hcb s Hs _))
    as (g' & H1 & H2 & _ & _ & _ & H3).
  exists g'. split; [exact H1 | split; [exact H2 |]].
  rewrite H3. reflexivity.
Defined.


(** X13 on a constructed group with the moving average: a final save
    before any [update]. *)
Lemma save_with_moving_average_needs_shadows_witness :
  paramsAvg_ (Toy.group 5 [0; 1]%nat true false) = [] /\
  forall g', save_graph (Toy.group 5 [0; 1]%nat true false) (PtrGraph 0) true
             <> Ok g'.
Proof.
  split; [reflexivity |].
  apply (@save_with_moving_average_needs_shadows (Toy.collaborators 5)
           (Toy.group 5 [0; 1]%nat true false) (PtrGraph 0) true eq_refl).
  apply Nat.ltb_lt. reflexivity.
Defined.

(** X14 on a group constructed for the model path [m]. *)
Lemma periodic_save_needs_four_characters_witness :
  String.length "m" = 1%nat /\
  forall g',
    save_graph
      (@new_group (Toy.collaborators 3)
         (mkConfig [0; 1]%nat false (Q2Qc (9999 # 10000)) false "m" false) [])
      (PtrGraph 0) false <> Ok g'.
Proof.
  split; [reflexivity |].
  apply (@periodic_save_needs_four_characters (Toy.collaborators 3)
           (@new_group (Toy.collaborators 3)
              (mkConfig [0; 1]%nat false (Q2Qc (9999 # 10000)) false "m" false)
              [])
           (PtrGraph 0) eq_refl).
  apply Nat.ltb_lt. reflexivity.
Defined.

(** X15 for the model path [model.npz] after seven batches. *)
Lemma snapshot_names_are_distinct_witness :
  snapshot_name "model.npz" 7 = "model.iter7.npz"%string.
Proof.
  exact (proj1 (proj2 (snapshot_names_are_distinct "model" ".npz" eq_refl)) 7%N).
Defined.

(** What is observed of the first [update] of a group of two devices whose
    scheduler asks neither for saving nor for validating. *)
Lemma group_update :
  match @update (Toy.collaborators 5)
          (setScheduler (Toy.group 5 [0; 1]%nat false false)
             (Toy.scheduler false false)) [1; 2; 3]%nat with
  | Ok _ => true
  | Err _ => false
  end = true.
Proof. vm_compute. reflexivity. Qed.

(** X16 at that step: the disk is as empty as before. *)
Lemma update_writes_files_only_when_saving_witness :
  exists g',
    update (setScheduler (Toy.group 5 [0; 1]%nat false false)
              (Toy.scheduler false false)) [1; 2; 3]%nat = Ok g' /\
    disk_ g' = [].
Proof.
  pose proof group_update as Hobs. revert Hobs.
  destruct (update (setScheduler (Toy.group 5 [0; 1]%nat false false)
                      (Toy.scheduler false false)) [1; 2; 3]%nat)
    as [g'|e] eqn:E; intros Hobs; [| discriminate Hobs].
  exists g'. split; [reflexivity |].
  apply (@update_writes_files_only_when_saving (Toy.collaborators 5)
           (setScheduler (Toy.group 5 [0; 1]%nat false false)
              (Toy.scheduler false false)) g' [1; 2; 3]%nat E).
  intros s cost Hs. injection Hs as <-. reflexivity.
Defined.

(** X17 at that step: the batch of three items splits in two. *)
Lemma update_needs_one_sub_batch_per_device_witness :
  exists g',
    update (setScheduler (Toy.group 5 [0; 1]%nat false false)
              (Toy.scheduler false false)) [1; 2; 3]%nat = Ok g' /\
    length (batch_split ([1; 2; 3]%nat : @Batch (Toy.collaborators 5)) 2) =
    2%nat.
Proof.
  pose proof group_update as Hobs. revert Hobs.
  destruct (update (setScheduler (Toy.group 5 [0; 1]%nat false false)
                      (Toy.scheduler false false)) [1; 2; 3]%nat)
    as [g'|e] eqn:E; intros Hobs; [| discriminate Hobs].
  exists g'. split; [reflexivity |].
  exact (@update_needs_one_sub_batch_per_device (Toy.collaborators 5)
           (setScheduler (Toy.group 5 [0; 1]%nat false false)
              (Toy.scheduler false false)) g' [1; 2; 3]%nat E eq_refl).
Defined.
